(** * AddProductModal: a shallow embedding of [src/components/AddProductModal.tsx]

    The component is a React function component holding six [useState]
    cells and three refs.  Its event handlers are embedded as computations
    in a small state-and-exception monad over a [World] that carries the
    state cells, the refs, the part of the browser the handlers touch
    (media tracks, the clock, the canvas) and the trace of calls made to
    the outside ([alert], [onAdd], [onClose], ...).

    JavaScript values are modelled as the language has them: strings are
    sequences of UTF-16 code units, numbers are IEEE-754 binary64 values
    ([SpecFloat.spec_float] at precision 53), objects used as records of
    quantities are finite maps from property names to numbers. *)

From Stdlib Require Import ZArith NArith List Bool Ascii String Lia.
From Stdlib Require Import Floats.SpecFloat.
From stdpp Require Import base option list gmap fin_maps.

Local Open Scope Z_scope.

(** ** JavaScript strings *)

Module JsString.

(** A string is a sequence of UTF-16 code units. *)
Definition code_unit := N.
Definition jsstring := list code_unit.

(** ASCII literals: every character of an ASCII literal is one code unit. *)
Definition str (s : String.string) : jsstring :=
  List.map N_of_ascii (list_ascii_of_string s).

(** ECMA-262 WhiteSpace: TAB, VT, FF, ZWNBSP and the Unicode
    Space_Separator category. *)
Definition isWhiteSpace (c : code_unit) : bool :=
  (existsb (N.eqb c) [9; 11; 12; 32; 160; 5760; 8239; 8287; 12288; 65279]
   || ((8192 <=? c) && (c <=? 8202)))%N.

(** ECMA-262 LineTerminator: LF, CR, LS, PS. *)
Definition isLineTerminator (c : code_unit) : bool :=
  existsb (N.eqb c) [10; 13; 8232; 8233]%N.

Definition isStrWhiteSpaceChar (c : code_unit) : bool :=
  isWhiteSpace c || isLineTerminator c.

(** [String.prototype.trimStart], [trimEnd] and [trim]. *)
Fixpoint trimStart (s : jsstring) : jsstring :=
  match s with
  | c :: r => if isStrWhiteSpaceChar c then trimStart r else s
  | [] => []
  end.

Definition trimEnd (s : jsstring) : jsstring := rev (trimStart (rev s)).

Definition trim (s : jsstring) : jsstring := trimEnd (trimStart s).

(** [s.startsWith(p)] *)
Fixpoint startsWith (p s : jsstring) : bool :=
  match p, s with
  | [], _ => true
  | a :: p', b :: s' => N.eqb a b && startsWith p' s'
  | _ :: _, [] => false
  end.

(** ToBoolean on a string: only the empty string is falsy. *)
Definition str_truthy (s : jsstring) : bool :=
  match s with [] => false | _ :: _ => true end.

End JsString.
Export JsString.

(** ** JavaScript numbers *)

Module JsNumber.

(** Number values are binary64 floats; NaN carries no payload. *)
Definition number := spec_float.

Definition prec64 : Z := 53.
Definition emax64 : Z := 1024.

Definition pos_zero : number := S754_zero false.
Definition neg_zero : number := S754_zero true.
Definition pos_infinity : number := S754_infinity false.
Definition NaN : number := S754_nan.

(** The global [isNaN] applied to a Number. *)
Definition isNaN (x : number) : bool :=
  match x with S754_nan => true | _ => false end.

Definition isFinite (x : number) : bool :=
  match x with S754_nan | S754_infinity _ => false | _ => true end.

(** Relational operators; every comparison with NaN is false. *)
Definition num_le (x y : number) : bool := SFleb x y.
Definition num_lt (x y : number) : bool := SFltb x y.
Definition num_ge (x y : number) : bool := SFleb y x.
Definition num_gt (x y : number) : bool := SFltb y x.

(** Strict equality [===] on Numbers: [+0 === -0], [NaN !== NaN]. *)
Definition strict_eq (x y : number) : bool := SFeqb x y.

(** ToBoolean on a Number: [+0], [-0] and [NaN] are falsy. *)
Definition num_truthy (x : number) : bool :=
  match x with S754_zero _ | S754_nan => false | _ => true end.

(** [x || d] for Numbers. *)
Definition or_default (x d : number) : number := if num_truthy x then x else d.

(** The Number value for a non-zero integer: round to nearest, ties
    to even, overflow to infinity. *)
Definition of_Z (z : Z) : number := binary_normalize prec64 emax64 z 0 false.

(** The Number value for [(-1)^neg * m * 10^e], rounded once from the
    exact rational value. A zero mantissa keeps the sign. *)
Definition of_decimal (neg : bool) (m e : Z) : number :=
  match m with
  | Zpos p =>
      let num := Z.to_pos (Zpos p * 10 ^ Z.max e 0) in
      let den := Z.to_pos (10 ^ Z.max (- e) 0) in
      SFdiv prec64 emax64 (S754_finite neg num 0) (S754_finite false den 0)
  | _ => S754_zero neg
  end.

End JsNumber.
Export JsNumber.


(** ** The built-in functions the component calls *)

Module Builtins.

Definition isDigit (c : code_unit) : bool := ((48 <=? c) && (c <=? 57))%N.

(** Value of a radix-16 digit, letters in either case. *)
Definition hexDigit (c : code_unit) : option Z :=
  (if (48 <=? c) && (c <=? 57) then Some (Z.of_N (c - 48))
   else if (65 <=? c) && (c <=? 70) then Some (Z.of_N (c - 55))
   else if (97 <=? c) && (c <=? 102) then Some (Z.of_N (c - 87))
   else None)%N.

Definition decDigit (c : code_unit) : option Z :=
  if isDigit c then Some (Z.of_N (c - 48)) else None.

(** The longest prefix of [s] made of digits (given by [dig]), as the
    list of digit values, and the rest of [s]. *)
Fixpoint spanDigits (dig : code_unit -> option Z) (s : jsstring)
  : list Z * jsstring :=
  match s with
  | c :: r =>
      match dig c with
      | Some d => let '(ds, rest) := spanDigits dig r in (d :: ds, rest)
      | None => ([], s)
      end
  | [] => ([], [])
  end.

(** The integer written by a list of digit values in radix [R]. *)
Definition digitsValue (R : Z) (ds : list Z) : Z :=
  fold_left (fun acc d => acc * R + d) ds 0.

(** [parseInt(string)] with the radix argument absent (ECMA-262
    19.2.5): leading white space is skipped, a sign and a [0x]/[0X]
    prefix are recognised, the longest run of digits is read, and an
    empty run gives NaN.  The integer read is rounded to the nearest
    Number from its exact value, also beyond 20 significant digits,
    where the standard lets an implementation drop the later digits. *)
Definition parseInt (input : jsstring) : number :=
  let S0 := trimStart input in
  let neg := match S0 with 45%N :: _ => true | _ => false end in
  let S1 := match S0 with
            | 43%N :: r | 45%N :: r => r
            | _ => S0
            end in
  let '(R, dig, S2) :=
    match S1 with
    | 48%N :: 120%N :: r | 48%N :: 88%N :: r => (16, hexDigit, r)
    | _ => (10, decDigit, S1)
    end in
  let '(ds, _) := spanDigits dig S2 in
  match ds with
  | [] => NaN
  | _ :: _ =>
      let mathInt := digitsValue R ds in
      if mathInt =? 0 then (if neg then neg_zero else pos_zero)
      else of_Z (if neg then - mathInt else mathInt)
  end.

(** ExponentPart of a StrDecimalLiteral: [e] or [E], an optional sign
    and at least one digit; when no digit follows, the exponent is not
    part of the literal. *)
Definition exponentPart (s : jsstring) : Z :=
  match s with
  | 101%N :: r | 69%N :: r =>
      let '(neg, r') := match r with
                        | 43%N :: t => (false, t)
                        | 45%N :: t => (true, t)
                        | _ => (false, r)
                        end in
      match spanDigits decDigit r' with
      | ([], _) => 0
      | (ds, _) => let v := digitsValue 10 ds in if neg then - v else v
      end
  | _ => 0
  end.

(** The longest prefix of [s] that is a StrUnsignedDecimalLiteral other
    than [Infinity], as mantissa and decimal exponent. *)
Definition unsignedDecimal (s : jsstring) : option (Z * Z) :=
  let '(ip, r1) := spanDigits decDigit s in
  let '(fp, r2) := match r1 with
                   | 46%N :: r => spanDigits decDigit r
                   | _ => ([], r1)
                   end in
  match ip, fp with
  | [], [] => None
  | _, _ =>
      Some (digitsValue 10 (ip ++ fp),
            exponentPart r2 - Z.of_nat (length fp))
  end.

(** [parseFloat(string)] (ECMA-262 19.2.4): leading white space is
    skipped and the longest prefix that is a StrDecimalLiteral is
    converted; no such prefix gives NaN.  Literals of more than 20
    significant digits, where the standard leaves the last digit of
    the rounding to the implementation, are rounded from their exact
    value. *)
Definition parseFloat (input : jsstring) : number :=
  let S0 := trimStart input in
  let '(neg, S1) := match S0 with
                    | 43%N :: r => (false, r)
                    | 45%N :: r => (true, r)
                    | _ => (false, S0)
                    end in
  if startsWith (str "Infinity") S1 then S754_infinity neg
  else match unsignedDecimal S1 with
       | Some (m, e) => of_decimal neg m e
       | None => NaN
       end.

End Builtins.
Export Builtins.


(** ** The component *)

Module AddProductModal.

(** [type ProductType = 'clothing' | 'shoes'] *)
Inductive ProductType := clothing | shoes.

(** Modelled from the spec: the string-literal types [ProductSize] and
    [ShoeSize] are declared in [src/types], which is not part of the
    sources at hand.  The spec gives them as the fixed enumerations
    {S, M, L, XL, XXL, XXXL, 4XL, 5XL, 6XL} and {36..45}; these are
    also the literals of [clothingSizes] and [shoeSizes] and the keys
    of the two [SizeRecord] literals of the component.  [Size] is the
    union [ProductSize | ShoeSize]. *)
Inductive Size :=
| sz_S | sz_M | sz_L | sz_XL | sz_XXL | sz_XXXL | sz_4XL | sz_5XL | sz_6XL
| sz_36 | sz_37 | sz_38 | sz_39 | sz_40 | sz_41 | sz_42 | sz_43 | sz_44
| sz_45.

#[export] Instance Size_eq_dec : EqDecision Size.
Proof. solve_decision. Defined.

#[export] Instance ProductType_eq_dec : EqDecision ProductType.
Proof. solve_decision. Defined.

(** The string a size is at run time (the property name it indexes). *)
Definition label (s : Size) : jsstring :=
  str match s with
      | sz_S => "S" | sz_M => "M" | sz_L => "L" | sz_XL => "XL"
      | sz_XXL => "XXL" | sz_XXXL => "XXXL" | sz_4XL => "4XL"
      | sz_5XL => "5XL" | sz_6XL => "6XL"
      | sz_36 => "36" | sz_37 => "37" | sz_38 => "38" | sz_39 => "39"
      | sz_40 => "40" | sz_41 => "41" | sz_42 => "42" | sz_43 => "43"
      | sz_44 => "44" | sz_45 => "45"
      end%string.

(** [type SizeRecord = Record<ProductSize | ShoeSize, number>]: an
    object whose properties are quantities. *)
Abbreviation SizeRecord := (gmap jsstring number).

Definition clothingSizes : list Size :=
  [sz_S; sz_M; sz_L; sz_XL; sz_XXL; sz_XXXL; sz_4XL; sz_5XL; sz_6XL].
Definition shoeSizes : list Size :=
  [sz_36; sz_37; sz_38; sz_39; sz_40; sz_41; sz_42; sz_43; sz_44; sz_45].

(** An object literal: properties are defined left to right. *)
Definition objectLiteral (props : list (jsstring * number)) : SizeRecord :=
  fold_left (fun o kv => <[kv.1 := kv.2]> o) props ∅.

(** [Object.fromEntries(entries)]: same order, a later entry for a key
    replaces an earlier one. *)
Definition fromEntries (entries : list (jsstring * number)) : SizeRecord :=
  fold_left (fun o kv => <[kv.1 := kv.2]> o) entries ∅.

(** [{...a, ...b}]: the properties of [a], overridden by those of [b]. *)
Definition spread (a b : SizeRecord) : SizeRecord := b ∪ a.

(** The literal [{'S': 0, 'M': 0, ..., '45': 0}] that initialises the
    [sizes] cell and is [initialSizes] in [handleSubmit]. *)
Definition zeroSizes : SizeRecord :=
  objectLiteral
    (List.map (fun k => (str k, pos_zero))
       ["S"; "M"; "L"; "XL"; "XXL"; "XXXL"; "4XL"; "5XL"; "6XL";
        "36"; "37"; "38"; "39"; "40"; "41"; "42"; "43"; "44"; "45"]%string).

(** Modelled from the spec: [Product] is declared in [src/types], not
    at hand.  The creation request [Omit<Product, 'id'>] has the fields
    the spec lists (name, price, image payload, type, size-to-quantity
    mapping, creation timestamp), which are the fields of the object
    literal built in [handleSubmit]. *)
Record Product := mkProduct {
  product_name : jsstring;
  product_price : number;
  product_image : jsstring;
  product_type : ProductType;
  product_sizes : SizeRecord;
  product_createdAt : number
}.

(** *** The browser objects the handlers touch *)

(** A [MediaStreamTrack] is identified by a number; whether it has been
    stopped is kept in the world, so every alias of a stream sees it. *)
Definition TrackId := nat.

Record MediaStream := mkStream { getTracks : list TrackId }.

(** The picture a video element currently shows, as an opaque handle. *)
Definition Frame := N.

Record HTMLVideoElement := mkVideo {
  srcObject : option MediaStream;
  videoWidth : N;
  videoHeight : N;
  currentFrame : Frame
}.

(** What has been drawn on a canvas since it was created. *)
Inductive DrawOp := DrawImage (f : Frame) (dx dy : Z).

Record Canvas := mkCanvas {
  width : N;
  height : N;
  drawn : list DrawOp
}.

(** [document.createElement('canvas')]: 300 by 150 and blank. *)
Definition createCanvas : Canvas := mkCanvas 300 150 [].
(** Assigning [width] or [height] also clears the bitmap. *)
Definition setWidth (n : N) (c : Canvas) := mkCanvas n (height c) [].
Definition setHeight (n : N) (c : Canvas) := mkCanvas (width c) n [].
(** [ctx.drawImage(video, dx, dy)] paints the current frame. *)
Definition drawImage (v : HTMLVideoElement) (dx dy : Z) (c : Canvas) :=
  mkCanvas (width c) (height c) (drawn c ++ [DrawImage (currentFrame v) dx dy]).

Inductive Exn :=
| TypeError
| DOMException (name : jsstring).

(** Calls the component makes to the outside, in the order made. *)
Inductive Call :=
| preventDefault
| alert (msg : jsstring)
| console_error (msg : jsstring) (err : Exn)
| onAdd (product : Product)
| onClose
| fileInput_click
| getUserMedia
| readAsDataURL (file : N).

(** *** State *)

(** The six [useState] cells. *)
Record State := mkState {
  name : jsstring;
  price : jsstring;
  image : jsstring;
  type : ProductType;
  currentSizes : list Size;
  sizes : SizeRecord
}.

Record World := mkWorld {
  state : State;
  (** [streamRef.current] and [videoRef.current] *)
  streamRef : option MediaStream;
  videoRef : option HTMLVideoElement;
  (** tracks whose [readyState] is ["ended"] *)
  ended : gset TrackId;
  (** what [Date.now()] returns *)
  clock : number;
  (** whether [canvas.getContext('2d')] yields a context *)
  canvas2d : bool;
  (** the platform's [canvas.toDataURL(type)] *)
  toDataURL : Canvas -> jsstring -> jsstring;
  trace : list Call
}.

Definition with_state (f : State -> State) (w : World) : World :=
  mkWorld (f (state w)) (streamRef w) (videoRef w) (ended w) (clock w)
          (canvas2d w) (toDataURL w) (trace w).
Definition with_streamRef (r : option MediaStream) (w : World) : World :=
  mkWorld (state w) r (videoRef w) (ended w) (clock w)
          (canvas2d w) (toDataURL w) (trace w).
Definition with_videoRef (r : option HTMLVideoElement) (w : World) : World :=
  mkWorld (state w) (streamRef w) r (ended w) (clock w)
          (canvas2d w) (toDataURL w) (trace w).
Definition with_ended (f : gset TrackId -> gset TrackId) (w : World) : World :=
  mkWorld (state w) (streamRef w) (videoRef w) (f (ended w)) (clock w)
          (canvas2d w) (toDataURL w) (trace w).
Definition with_clock (t : number) (w : World) : World :=
  mkWorld (state w) (streamRef w) (videoRef w) (ended w) t
          (canvas2d w) (toDataURL w) (trace w).
Definition with_call (c : Call) (w : World) : World :=
  mkWorld (state w) (streamRef w) (videoRef w) (ended w) (clock w)
          (canvas2d w) (toDataURL w) (trace w ++ [c]).

(** *** The monad of handlers: state and exceptions *)

Inductive Result (A : Type) :=
| Ok (a : A) (w : World)
| Throw (e : Exn) (w : World).
Arguments Ok {A} a w.
Arguments Throw {A} e w.

Definition M (A : Type) := World -> Result A.

Definition ret {A} (a : A) : M A := fun w => Ok a w.
Definition bind {A B} (m : M A) (k : A -> M B) : M B :=
  fun w => match m w with
           | Ok a w' => k a w'
           | Throw e w' => Throw e w'
           end.
Definition throw {A} (e : Exn) : M A := fun w => Throw e w.
Definition get : M World := fun w => Ok w w.
Definition modify (f : World -> World) : M unit := fun w => Ok tt (f w).

Notation "x <- m ;; k" := (bind m (fun x => k))
  (at level 100, m at next level, right associativity).
Notation "m ;;; k" := (bind m (fun _ => k))
  (at level 100, right associativity).

Fixpoint forEach {A} (l : list A) (f : A -> M unit) : M unit :=
  match l with
  | [] => ret tt
  | x :: r => f x ;;; forEach r f
  end.

Definition call (c : Call) : M unit := modify (with_call c).

(** State setters.  An updater function is applied to the cell's
    latest value, as React does when it processes the update queue. *)
Definition setName (v : jsstring) : M unit :=
  modify (with_state (fun s =>
    mkState v (price s) (image s) (type s) (currentSizes s) (sizes s))).
Definition setPrice (v : jsstring) : M unit :=
  modify (with_state (fun s =>
    mkState (name s) v (image s) (type s) (currentSizes s) (sizes s))).
Definition setImage (v : jsstring) : M unit :=
  modify (with_state (fun s =>
    mkState (name s) (price s) v (type s) (currentSizes s) (sizes s))).
Definition setType (t : ProductType) : M unit :=
  modify (with_state (fun s =>
    mkState (name s) (price s) (image s) t (currentSizes s) (sizes s))).
Definition setCurrentSizes (f : list Size -> list Size) : M unit :=
  modify (with_state (fun s =>
    mkState (name s) (price s) (image s) (type s) (f (currentSizes s)) (sizes s))).
Definition setSizes (f : SizeRecord -> SizeRecord) : M unit :=
  modify (with_state (fun s =>
    mkState (name s) (price s) (image s) (type s) (currentSizes s) (f (sizes s)))).

(** Reading a property of [null] throws a TypeError. *)
Definition deref {A} (r : option A) : M A :=
  match r with
  | Some a => ret a
  | None => throw TypeError
  end.

(** [track.stop()] *)
Definition track_stop (t : TrackId) : M unit :=
  modify (with_ended (fun e => {[t]} ∪ e)).

(** *** The handlers, in the order of the source *)

(** [prev.includes(size) ? prev.filter(s => s !== size) : [...prev, size]] *)
Definition toggle (size : Size) (prev : list Size) : list Size :=
  if bool_decide (size ∈ prev)
  then filter (fun s => s ≠ size) prev
  else prev ++ [size].

Definition handleSizeToggle (size : Size) : M unit :=
  setCurrentSizes (toggle size).

Definition handleStockChange (size : Size) (value : jsstring) : M unit :=
  let stockValue := or_default (parseInt value) pos_zero in
  setSizes (fun prev =>
    <[label size := if num_ge stockValue pos_zero then stockValue else pos_zero]> prev).

(** [handleImageUpload]: [file] is [e.target.files?.[0]].  The read is
    asynchronous; [reader_onloadend] is the callback it ends with, for
    a read that produced a string (a failed read, whose result is
    [null], is outside the model). *)
Definition handleImageUpload (file : option N) : M unit :=
  match file with
  | Some f => call (readAsDataURL f)
  | None => ret tt
  end.

Definition reader_onloadend (result : jsstring) : M unit :=
  let base64String := result in
  setImage base64String.

Definition msg_camera : jsstring :=
  str "Kamera eri" ++ [351%N] ++ str "imi sa" ++ [287%N] ++ str "lanamad"
    ++ [305%N] ++ str ".".

(** [startCamera] up to its [await], and from the [await] on, given how
    the [getUserMedia] promise settled. *)
Definition startCamera : M unit := call getUserMedia.

Definition startCamera_resume (settled : Exn + MediaStream) : M unit :=
  match settled with
  | inr stream =>
      v <- (w <- get ;; ret (videoRef w)) ;;
      match v with
      | Some video =>
          modify (with_videoRef
            (Some (mkVideo (Some stream) (videoWidth video)
                           (videoHeight video) (currentFrame video))))
      | None => ret tt
      end ;;;
      modify (with_streamRef (Some stream))
  | inl err =>
      call (console_error (str "Error accessing camera:") err) ;;;
      call (alert msg_camera)
  end.

Definition stopCamera : M unit :=
  cur <- (w <- get ;; ret (streamRef w)) ;;
  match cur with
  | Some _ =>
      cur' <- (w <- get ;; ret (streamRef w)) ;;
      stream <- deref cur' ;;
      forEach (getTracks stream) track_stop ;;;
      modify (with_streamRef None)
  | None => ret tt
  end.

Definition capturePhoto : M unit :=
  v <- (w <- get ;; ret (videoRef w)) ;;
  match v with
  | Some video =>
      let canvas := createCanvas in
      let canvas := setWidth (videoWidth video) canvas in
      let canvas := setHeight (videoHeight video) canvas in
      ctx <- (w <- get ;; ret (canvas2d w)) ;;
      if ctx : bool then
        let canvas := drawImage video 0 0 canvas in
        base64Image <- (w <- get ;; ret (toDataURL w canvas (str "image/jpeg"))) ;;
        setImage base64Image ;;;
        stopCamera
      else ret tt
  | None => ret tt
  end.

Definition msg_fields : jsstring :=
  str "L" ++ [252%N] ++ str "tfen t" ++ [252%N] ++ str "m alanlar"
    ++ [305%N] ++ str " doldurun.".

Definition msg_price : jsstring :=
  str "Ge" ++ [231%N] ++ str "erli bir fiyat girin.".

(** [sizes[size] || 0]; a missing property reads as [undefined]. *)
Definition stockOf (sizes : SizeRecord) (size : Size) : number :=
  match sizes !! label size with
  | Some v => or_default v pos_zero
  | None => pos_zero
  end.

Definition handleSubmit : M unit :=
  call preventDefault ;;;
  w <- get ;;
  let s := state w in
  if negb (str_truthy (trim (name s))) || negb (str_truthy (price s))
     || negb (str_truthy (image s))
  then call (alert msg_fields)
  else
    let numericPrice := parseFloat (price s) in
    if isNaN numericPrice || num_le numericPrice pos_zero
    then call (alert msg_price)
    else
      let initialSizes := zeroSizes in
      let product :=
        {| product_name := trim (name s);
           product_price := numericPrice;
           product_image := image s;
           product_type := type s;
           product_sizes :=
             spread initialSizes
               (fromEntries
                  (List.map (fun size => (label size, stockOf (sizes s) size))
                     (currentSizes s)));
           product_createdAt := clock w |} in
      call (onAdd product) ;;;
      call onClose.

(** The [onChange] of the type selector. *)
Definition handleTypeChange (t : ProductType) : M unit :=
  setType t ;;;
  setCurrentSizes (fun _ => []).

(** *** Events *)

(** What the page can deliver to the mounted component: one
    constructor per handler attached in the rendered tree, the two
    asynchronous completions, and the passing of time. *)
Inductive Event :=
| NameChange (v : jsstring)
| PriceChange (v : jsstring)
| TypeChange (t : ProductType)
| SizeClick (size : Size)
| StockChange (size : Size) (v : jsstring)
| RemoveImageClick
| UploadClick
| FileChange (file : option N)
| FileLoadEnd (result : jsstring)
| CameraClick
| CameraSettled (settled : Exn + MediaStream)
| CaptureClick
| CameraCancelClick
| CloseClick
| Submit
| Tick (now : number).

Definition handle (e : Event) : M unit :=
  match e with
  | NameChange v => setName v
  | PriceChange v => setPrice v
  | TypeChange t => handleTypeChange t
  | SizeClick size => handleSizeToggle size
  | StockChange size v => handleStockChange size v
  | RemoveImageClick => setImage []
  | UploadClick => call fileInput_click
  | FileChange file => handleImageUpload file
  | FileLoadEnd result => reader_onloadend result
  | CameraClick => startCamera
  | CameraSettled r => startCamera_resume r
  | CaptureClick => capturePhoto
  | CameraCancelClick => stopCamera
  | CloseClick => call onClose
  | Submit => handleSubmit
  | Tick now => modify (with_clock now)
  end.

(** The sizes offered as buttons: [type === 'clothing' ? clothingSizes
    : shoeSizes]. *)
Definition catalog (t : ProductType) : list Size :=
  match t with
  | clothing => clothingSizes
  | shoes => shoeSizes
  end.

(** An event can occur only on an element the last render produced:
    a size button exists for the sizes of the current catalog, a stock
    input for the selected sizes, the remove button while there is an
    image and the two acquisition buttons while there is none, the
    camera overlay while [videoRef.current] is set.  The browser's own
    checks on the form ([required], [min], [step]) are left out: a
    submit event is taken to be possible in every world. *)
Definition enabled (w : World) (e : Event) : bool :=
  match e with
  | SizeClick size => bool_decide (size ∈ catalog (type (state w)))
  | StockChange size _ => bool_decide (size ∈ currentSizes (state w))
  | RemoveImageClick => str_truthy (image (state w))
  | UploadClick | CameraClick => negb (str_truthy (image (state w)))
  | CaptureClick | CameraCancelClick =>
      match videoRef w with Some _ => true | None => false end
  | _ => true
  end.

(** The component as first rendered, in a given environment. *)
Definition initialState : State :=
  mkState [] [] [] clothing [] zeroSizes.

Definition mount (now : number) (ctx : bool)
    (enc : Canvas -> jsstring -> jsstring) : World :=
  mkWorld initialState None None ∅ now ctx enc [].

(** One event, handled to completion. *)
Definition step (w : World) (e : Event) (w' : World) : Prop :=
  enabled w e = true ∧ handle e w = Ok tt w'.

Inductive reachable : World -> Prop :=
| reachable_mount now ctx enc : reachable (mount now ctx enc)
| reachable_step w e w' : reachable w -> step w e w' -> reachable w'.

(** Running a list of events from a world, stopping at an exception or
    at an event that is not enabled. *)
Fixpoint run (es : list Event) (w : World) : option World :=
  match es with
  | [] => Some w
  | e :: r =>
      if enabled w e then
        match handle e w with
        | Ok _ w' => run r w'
        | Throw _ _ => None
        end
      else None
  end.

End AddProductModal.
Export AddProductModal.

(** ** Vocabulary of the statements *)

(** The world a computation leaves behind, whether it returned or threw. *)
Definition world_of {A} (r : Result A) : World :=
  match r with
  | Ok _ w => w
  | Throw _ w => w
  end.

(** The full size-label space: the 9 clothing and the 10 shoe labels. *)
Definition labelSpace : gset jsstring :=
  list_to_set (List.map label (clothingSizes ++ shoeSizes)).

(** A quantity as [handleStockChange] stores them: a Number that is
    [>= 0] and is not the negative zero. *)
Definition quantity (v : number) : Prop :=
  num_ge v pos_zero = true ∧ v ≠ neg_zero.

(** Every Stock Map value is [>= 0]. *)
Definition nonneg_stock (r : SizeRecord) : Prop :=
  ∀ k v, r !! k = Some v → num_ge v pos_zero = true.

(** The Stock Map has an entry for every size, and every value in it is
    a quantity. *)
Definition stock_wf (r : SizeRecord) : Prop :=
  (∀ size, is_Some (r !! label size)) ∧ (∀ k v, r !! k = Some v → quantity v).

(** Following the spec's words for [setStock]: "on parse failure or
    negative result, store 0; otherwise store the parsed value". *)
Definition setStock_spec (rawText : jsstring) : number :=
  let parsed := parseInt rawText in
  if isNaN parsed || num_lt parsed pos_zero then pos_zero else parsed.

(** Selected Sizes is within the catalog of the current product type. *)
Definition selection_in_catalog (s : State) : Prop :=
  ∀ size, size ∈ currentSizes s → size ∈ catalog (type s).

(** A name that is empty or made of white space only. *)
Definition blank (s : jsstring) : Prop := Forall (fun c => isStrWhiteSpaceChar c = true) s.

(** The request [handleSubmit] builds from the state and the clock: the
    object literal [product] of the source. *)
Definition builtRequest (w : World) : Product :=
  mkProduct (trim (name (state w))) (parseFloat (price (state w)))
    (image (state w)) (type (state w))
    (spread zeroSizes
       (fromEntries
          (List.map (fun size => (label size, stockOf (sizes (state w)) size))
             (currentSizes (state w)))))
    (clock w).

(** The outcomes of a submission: the handler returns, the world is the
    one before with only these calls added to the trace. *)
Definition submit_rejected (w : World) (msg : jsstring) : Prop :=
  handleSubmit w = Ok tt (with_call (alert msg) (with_call preventDefault w)).

Definition submit_accepted (w : World) (p : Product) : Prop :=
  handleSubmit w =
  Ok tt (with_call onClose (with_call (onAdd p) (with_call preventDefault w))).





(** ** Sample worlds *)

Definition sample_encoder : Canvas → jsstring → jsstring :=
  fun c ty => str "data:" ++ ty ++ str ";base64,/9j/4AAQ".

Definition sample_mount : World :=
  mount (of_Z 1700000000000) true sample_encoder.

(** The form filled in as in the spec's example: a name, a price, an
    uploaded image, sizes M and L selected with stock 5 and 3. *)
Definition hoodie_events : list Event :=
  [NameChange (str "Red Hoodie"); PriceChange (str "249.90");
   FileChange (Some 1%N); FileLoadEnd (str "data:image/png;base64,iVBORw0KGgo=");
   SizeClick sz_M; SizeClick sz_L;
   StockChange sz_M (str "5"); StockChange sz_L (str "3")].

Definition hoodie_world : World :=
  default sample_mount (run hoodie_events sample_mount).

(** A form whose price text is ["Infinity"], the rest valid. *)
Definition infinity_world : World :=
  default sample_mount
    (run [NameChange (str "Boots"); PriceChange (str "Infinity");
          FileLoadEnd (str "data:image/png;base64,iVBORw0KGgo=")]
       sample_mount).



(** The camera has been granted.  The overlay holding the [video]
    element is rendered only when [videoRef.current] is already set, so
    the element is not there and the stream is kept in [streamRef] alone. *)
Definition sample_stream : MediaStream := mkStream [1%nat; 2%nat].

Definition camera_world : World :=
  default sample_mount
    (run [CameraClick; CameraSettled (inr sample_stream)] sample_mount).

(** The same world with a [video] element in [videoRef.current], showing
    the stream at 640 by 480. *)
Definition preview_world : World :=
  with_videoRef (Some (mkVideo (Some sample_stream) 640 480 7%N)) camera_world.

(** What a creation request should satisfy: a name, a price above
    zero, an image, and a size map over the 19 labels without negative
    values. *)
Definition valid_request (p : Product) : Prop :=
  product_name p ≠ []
  ∧ num_gt (product_price p) pos_zero = true
  ∧ product_image p ≠ []
  ∧ dom (product_sizes p) = labelSpace
  ∧ nonneg_stock (product_sizes p).

(** A string that neither starts nor ends with white space. *)
Definition no_outer_space (s : jsstring) : Prop :=
  (∀ c t, s = c :: t → isStrWhiteSpaceChar c = false)
  ∧ (∀ t c, s = t ++ [c] → isStrWhiteSpaceChar c = false).

(** The example form with white space around the name. *)
Definition padded_name_world : World :=
  default sample_mount
    (run [NameChange ([9%N; 32%N] ++ str "Red Hoodie" ++ [160%N; 10%N])]
       hoodie_world).

(** The example form after the type was switched to shoes: M and L keep
    their stock in the Stock Map but are no longer selected. *)
Definition switched_world : World :=
  default sample_mount (run [TypeChange shoes] hoodie_world).

(** The example form with L selected before M. *)
Definition hoodie_world_LM : World :=
  default sample_mount
    (run [NameChange (str "Red Hoodie"); PriceChange (str "249.90");
          FileLoadEnd (str "data:image/png;base64,iVBORw0KGgo=");
          SizeClick sz_L; SizeClick sz_M;
          StockChange sz_M (str "5"); StockChange sz_L (str "3")]
       sample_mount).

(** The example form with a price text of two spaces. *)
Definition blank_price_world : World :=
  default sample_mount (run [PriceChange (str "  ")] hoodie_world).

(** A freshly mounted component given a [video] element. *)
Definition video_mount : World :=
  with_videoRef (Some (mkVideo None 640 480 7%N)) sample_mount.

(** * Properties *)

(** ** Numbers *)

Lemma num_gt_zero_iff (x : number) :
  num_gt x pos_zero = true ↔ isNaN x || num_le x pos_zero = false.
Proof. destruct x as [[]|[]| |[] m e]; cbn; intuition congruence. Qed.

Lemma or_default_quantity (v : number) : quantity v → or_default v pos_zero = v.
Proof.
  intros [Hge Hnz]. destruct v as [[]|[]| |[] m e]; cbn in *;
    try reflexivity; try discriminate.
  contradiction Hnz; reflexivity.
Qed.

(** What [handleStockChange] stores is a quantity, whatever was parsed. *)
Lemma stored_quantity (p : number) :
  let sv := or_default p pos_zero in
  quantity (if num_ge sv pos_zero then sv else pos_zero).
Proof.
  destruct p as [[]|[]| |[] m e]; cbn; split; (reflexivity || discriminate).
Qed.

Lemma stored_spec (raw : jsstring) :
  let sv := or_default (parseInt raw) pos_zero in
  let v := if num_ge sv pos_zero then sv else pos_zero in
  strict_eq v (setStock_spec raw) = true
  ∧ (parseInt raw ≠ neg_zero → v = setStock_spec raw).
Proof.
  unfold setStock_spec.
  destruct (parseInt raw) as [[]|[]| |[] m e]; cbn;
    (split; [| intros H; first [reflexivity | exfalso; apply H; reflexivity]]);
    try reflexivity.
  unfold strict_eq, SFeqb. cbn [SFcompare].
  rewrite Z.compare_refl, Pos.compare_cont_refl. reflexivity.
Qed.




(** ** Strings *)

Lemma trimStart_nil_iff (s : jsstring) : trimStart s = [] ↔ blank s.
Proof.
  unfold blank. induction s as [|c r IH]; cbn.
  - split; [constructor | reflexivity].
  - destruct (isStrWhiteSpaceChar c) eqn:Hc.
    + rewrite IH. split; [by constructor | by inversion 1].
    + split; [discriminate | inversion 1; congruence].
Qed.

Lemma blank_trimStart (s : jsstring) : blank (trimStart s) ↔ blank s.
Proof.
  unfold blank. induction s as [|c r IH]; cbn; [reflexivity|].
  destruct (isStrWhiteSpaceChar c) eqn:Hc; [|reflexivity].
  rewrite IH. split; [by constructor | by inversion 1].
Qed.

Lemma blank_rev (s : jsstring) : blank (rev s) ↔ blank s.
Proof.
  unfold blank. split; intros H.
  - rewrite <- (rev_involutive s). by apply Forall_rev.
  - by apply Forall_rev.
Qed.

(** [name.trim()] is the empty string exactly for a blank name. *)
Lemma trim_nil_iff (s : jsstring) : trim s = [] ↔ blank s.
Proof.
  unfold trim, trimEnd.
  rewrite <- (blank_trimStart s), <- (blank_rev (trimStart s)), <- trimStart_nil_iff.
  split; intros H.
  - apply (f_equal (@rev _)) in H. by rewrite rev_involutive in H.
  - by rewrite H.
Qed.

Lemma str_truthy_false (s : jsstring) : str_truthy s = false ↔ s = [].
Proof. destruct s; cbn; intuition congruence. Qed.

(** ** Size labels and size records *)

Lemma label_inj (s1 s2 : Size) : label s1 = label s2 → s1 = s2.
Proof. destruct s1, s2; intros H; first [reflexivity | by vm_compute in H]. Qed.

Lemma label_in_space (size : Size) : label size ∈ labelSpace.
Proof.
  unfold labelSpace. apply elem_of_list_to_set, list_elem_of_In, in_map.
  destruct size; cbn; tauto.
Qed.

Lemma labelSpace_labels (k : jsstring) :
  k ∈ labelSpace → ∃ size, k = label size.
Proof.
  unfold labelSpace. rewrite elem_of_list_to_set, list_elem_of_In, in_map_iff.
  intros (size & <- & _). by exists size.
Qed.

Lemma zeroSizes_lookup (size : Size) : zeroSizes !! label size = Some pos_zero.
Proof. destruct size; vm_compute; reflexivity. Qed.

Lemma zeroSizes_dom : dom zeroSizes = labelSpace.
Proof.
  apply set_eq. intros k. rewrite elem_of_dom. split.
  - intros [v Hv]. unfold zeroSizes, objectLiteral in Hv. cbn in Hv.
    repeat (apply lookup_insert_Some in Hv as [[<- _] | [_ Hv]];
            [ apply elem_of_list_to_set, list_elem_of_In; cbn; tauto | ]).
    by rewrite lookup_empty in Hv.
  - intros (size & ->)%labelSpace_labels. rewrite zeroSizes_lookup. eauto.
Qed.

Section FromEntries.
Context (f : Size → number).

Lemma fold_entries_lookup (l : list Size) (acc : SizeRecord) (size : Size) :
  fold_left (fun o kv => <[kv.1 := kv.2]> o)
    (List.map (fun s => (label s, f s)) l) acc !! label size
  = if bool_decide (size ∈ l) then Some (f size) else acc !! label size.
Proof.
  revert acc. induction l as [|a l IH]; intros acc; cbn; [reflexivity|].
  rewrite IH. destruct (decide (size ∈ l)) as [Hin|Hin].
  - rewrite !bool_decide_eq_true_2; [reflexivity | by right | done].
  - rewrite (bool_decide_eq_false_2 (size ∈ l)) by done.
    destruct (decide (size = a)) as [->|Hne].
    + rewrite bool_decide_eq_true_2 by left. apply lookup_insert_eq.
    + rewrite bool_decide_eq_false_2.
      * apply lookup_insert_ne. intros Heq. by apply label_inj in Heq.
      * rewrite elem_of_cons. tauto.
Qed.

Lemma fromEntries_lookup (l : list Size) (size : Size) :
  fromEntries (List.map (fun s => (label s, f s)) l) !! label size
  = if bool_decide (size ∈ l) then Some (f size) else None.
Proof. unfold fromEntries. by rewrite fold_entries_lookup, lookup_empty. Qed.

Lemma fold_entries_dom (l : list Size) (acc : SizeRecord) :
  dom acc ⊆ labelSpace →
  dom (fold_left (fun o kv => <[kv.1 := kv.2]> o)
         (List.map (fun s => (label s, f s)) l) acc) ⊆ labelSpace.
Proof.
  revert acc. induction l as [|a l IH]; intros acc Hacc; cbn; [done|].
  apply IH. rewrite dom_insert_L.
  intros k [->%elem_of_singleton | Hk]%elem_of_union;
    [apply label_in_space | by apply Hacc].
Qed.

Lemma fromEntries_dom (l : list Size) :
  dom (fromEntries (List.map (fun s => (label s, f s)) l)) ⊆ labelSpace.
Proof. apply fold_entries_dom. rewrite dom_empty_L. apply empty_subseteq. Qed.

End FromEntries.

(** ** The handlers as state transformers *)

Lemma forEach_track_stop (l : list TrackId) (w : World) :
  forEach l track_stop w = Ok tt (with_ended (fun e => list_to_set l ∪ e) w).
Proof.
  revert w. induction l as [|t l IH]; intros w.
  - cbn. unfold ret. f_equal. destruct w; unfold with_ended; cbn. f_equal.
    by rewrite (left_id_L ∅ (∪)).
  - cbn [forEach]. unfold bind at 1, track_stop at 1, modify. rewrite IH.
    f_equal. destruct w; unfold with_ended; cbn. f_equal.
    apply set_eq. intros x.
    rewrite !elem_of_union, elem_of_singleton. tauto.
Qed.

Lemma stopCamera_eq (w : World) :
  stopCamera w =
  Ok tt match streamRef w with
        | Some stream =>
            with_streamRef None
              (with_ended (fun e => list_to_set (getTracks stream) ∪ e) w)
        | None => w
        end.
Proof.
  unfold stopCamera, bind, get, ret.
  destruct (streamRef w) as [stream|] eqn:Hcur; [|done].
  cbn. rewrite Hcur. cbn. by rewrite forEach_track_stop.
Qed.

Lemma capturePhoto_eq (w : World) :
  capturePhoto w =
  match videoRef w, canvas2d w with
  | Some video, true =>
      let canvas :=
        mkCanvas (videoWidth video) (videoHeight video)
                 [DrawImage (currentFrame video) 0 0] in
      stopCamera (world_of (setImage (toDataURL w canvas (str "image/jpeg")) w))
  | _, _ => Ok tt w
  end.
Proof.
  unfold capturePhoto, bind, get, ret.
  destruct (videoRef w) as [video|]; [|done].
  destruct (canvas2d w); done.
Qed.

(** [handleSubmit] by cases on its two tests. *)
Lemma handleSubmit_eq (w : World) :
  let s := state w in
  let w1 := with_call preventDefault w in
  handleSubmit w =
  Ok tt
    (if negb (str_truthy (trim (name s))) || negb (str_truthy (price s))
        || negb (str_truthy (image s))
     then with_call (alert msg_fields) w1
     else if isNaN (parseFloat (price s)) || num_le (parseFloat (price s)) pos_zero
     then with_call (alert msg_price) w1
     else with_call onClose (with_call (onAdd (builtRequest w)) w1)).
Proof.
  unfold handleSubmit, bind, call, modify, get. cbn.
  destruct (_ || _ || _); [done|].
  destruct (_ || _); done.
Qed.

(** No handler throws. *)
Lemma handle_returns (e : Event) (w : World) : ∃ w', handle e w = Ok tt w'.
Proof.
  destruct e; cbn [handle]; try (eexists; reflexivity).
  - destruct file; eexists; reflexivity.
  - destruct settled as [err|stream]; [eexists; reflexivity|].
    unfold startCamera_resume, bind, get, ret. cbn.
    destruct (videoRef w); eexists; reflexivity.
  - rewrite capturePhoto_eq. destruct (videoRef w), (canvas2d w);
      try (eexists; reflexivity). rewrite stopCamera_eq. eexists; reflexivity.
  - rewrite stopCamera_eq. eexists; reflexivity.
  - rewrite handleSubmit_eq. eexists; reflexivity.
Qed.

(** How each event changes the Stock Map, the selection and the type:
    only the handler named for the cell writes it. *)
Lemma handle_sizes (e : Event) (w : World) :
  sizes (state (world_of (handle e w))) =
  match e with
  | StockChange size v =>
      let stockValue := or_default (parseInt v) pos_zero in
      <[label size := if num_ge stockValue pos_zero then stockValue else pos_zero]>
        (sizes (state w))
  | _ => sizes (state w)
  end.
Proof.
  destruct e; cbn [handle]; try reflexivity.
  - by destruct file.
  - destruct settled as [err|stream]; [reflexivity|].
    unfold startCamera_resume, bind, get, ret. cbn. by destruct (videoRef w).
  - rewrite capturePhoto_eq. destruct (videoRef w), (canvas2d w); try reflexivity.
    rewrite stopCamera_eq. cbn. by destruct (streamRef w).
  - rewrite stopCamera_eq. by destruct (streamRef w).
  - rewrite handleSubmit_eq. cbn. by repeat destruct (_ || _).
Qed.

Lemma handle_selection (e : Event) (w : World) :
  let s' := state (world_of (handle e w)) in
  currentSizes s' =
    match e with
    | SizeClick size => toggle size (currentSizes (state w))
    | TypeChange _ => []
    | _ => currentSizes (state w)
    end
  ∧ type s' = match e with TypeChange t => t | _ => type (state w) end.
Proof.
  destruct e; cbn [handle]; try (split; reflexivity).
  - by destruct file.
  - destruct settled as [err|stream]; [split; reflexivity|].
    unfold startCamera_resume, bind, get, ret. cbn. by destruct (videoRef w).
  - rewrite capturePhoto_eq. destruct (videoRef w), (canvas2d w); try (split; reflexivity).
    rewrite stopCamera_eq. cbn. by destruct (streamRef w).
  - rewrite stopCamera_eq. by destruct (streamRef w).
  - rewrite handleSubmit_eq. cbn. by repeat destruct (_ || _).
Qed.

(** ** Size selection *)

Lemma toggle_member (size : Size) (prev : list Size) :
  size ∈ prev → toggle size prev = filter (fun s => s ≠ size) prev.
Proof. intros H. unfold toggle. by rewrite bool_decide_eq_true_2. Qed.

Lemma toggle_absent (size : Size) (prev : list Size) :
  size ∉ prev → toggle size prev = prev ++ [size].
Proof. intros H. unfold toggle. by rewrite bool_decide_eq_false_2. Qed.

Lemma filter_absent (size : Size) (l : list Size) :
  size ∉ l → filter (fun s => s ≠ size) l = l.
Proof.
  induction l as [|a l IH]; intros H; [done|].
  apply not_elem_of_cons in H as [Hne Hl].
  rewrite filter_cons_True by done. by rewrite IH.
Qed.

Lemma elem_of_toggle (size s : Size) (prev : list Size) :
  s ∈ toggle size prev ↔ (s ≠ size ∧ s ∈ prev) ∨ (s = size ∧ size ∉ prev).
Proof.
  destruct (decide (size ∈ prev)) as [Hin|Hout].
  - rewrite toggle_member, list_elem_of_filter by done. tauto.
  - rewrite toggle_absent, elem_of_app, list_elem_of_singleton by done.
    destruct (decide (s = size)) as [->|]; tauto.
Qed.

(** C5. [toggleSize(s)] removes [s] when it is selected (keeping the
    other sizes in their order) and appends it at the end otherwise;
    two toggles in a row leave the membership of [s], and of every other
    size, as it was, and give back the very same list when [s] was
    absent. *)
Theorem toggleSize_twice (w : World) (size : Size) :
  let prev := currentSizes (state w) in
  ∃ w1 w2,
    handleSizeToggle size w = Ok tt w1
    ∧ handleSizeToggle size w1 = Ok tt w2
    ∧ (size ∈ prev →
       currentSizes (state w1) = filter (fun s => s ≠ size) prev
       ∧ size ∉ currentSizes (state w1))
    ∧ (size ∉ prev → currentSizes (state w1) = prev ++ [size])
    ∧ (size ∈ currentSizes (state w2) ↔ size ∈ prev)
    ∧ (∀ other, other ≠ size →
         (other ∈ currentSizes (state w1) ↔ other ∈ prev)
         ∧ (other ∈ currentSizes (state w2) ↔ other ∈ prev))
    ∧ (size ∉ prev → currentSizes (state w2) = prev).
Proof.
  intros prev. do 2 eexists. split; [reflexivity|]. split; [reflexivity|].
  cbn. fold prev. split_and!.
  - intros Hin. split; [by apply toggle_member|].
    rewrite elem_of_toggle. tauto.
  - apply toggle_absent.
  - rewrite !elem_of_toggle. destruct (decide (size ∈ prev)); tauto.
  - intros other Hne. rewrite !elem_of_toggle. tauto.
  - intros Hout. rewrite (toggle_absent size prev) by done.
    rewrite toggle_member by (apply elem_of_app; right; by left).
    rewrite filter_app, filter_absent by done.
    rewrite filter_cons_False, filter_nil by (intros H; by apply H).
    apply app_nil_r.
Qed.

(** ** Stock edits *)

(** C7. [setStock(s, v)] writes the Stock Map entry of [s] and nothing
    else: every other entry, the other five state cells, the refs, the
    tracks, the clock and the trace of calls are as before. *)
Theorem setStock_frame (w : World) (size : Size) (raw : jsstring) :
  ∃ w',
    handleStockChange size raw w = Ok tt w'
    ∧ (∀ k, k ≠ label size → sizes (state w') !! k = sizes (state w) !! k)
    ∧ (∀ other, other ≠ size →
         sizes (state w') !! label other = sizes (state w) !! label other)
    ∧ name (state w') = name (state w)
    ∧ price (state w') = price (state w)
    ∧ image (state w') = image (state w)
    ∧ type (state w') = type (state w)
    ∧ currentSizes (state w') = currentSizes (state w)
    ∧ streamRef w' = streamRef w
    ∧ videoRef w' = videoRef w
    ∧ ended w' = ended w
    ∧ clock w' = clock w
    ∧ trace w' = trace w.
Proof.
  eexists. split; [reflexivity|]. cbn. split_and!; try reflexivity.
  - intros k Hk. by apply lookup_insert_ne.
  - intros other Hne. apply lookup_insert_ne.
    intros Heq. by apply label_inj in Heq.
Qed.

(** ** Reachable worlds *)

Lemma run_reachable (es : list Event) (w w' : World) :
  reachable w → run es w = Some w' → reachable w'.
Proof.
  revert w. induction es as [|e es IH]; intros w Hw; cbn.
  - by intros [= <-].
  - destruct (enabled w e) eqn:Hen; [|done].
    destruct (handle_returns e w) as [w1 Hw1]. rewrite Hw1.
    apply IH. by apply (reachable_step w e w1).
Qed.

Lemma hoodie_reachable : reachable hoodie_world.
Proof. by apply (run_reachable hoodie_events sample_mount); [constructor|]. Qed.

Lemma handle_nonneg_stock (w : World) (e : Event) :
  nonneg_stock (sizes (state w)) →
  nonneg_stock (sizes (state (world_of (handle e w)))).
Proof.
  intros Hw. rewrite handle_sizes. destruct e; try exact Hw.
  intros k v'. cbn zeta. rewrite lookup_insert_Some.
  intros [[_ <-] | [_ Hk]]; [apply stored_quantity | by apply (Hw k)].
Qed.

Lemma handle_stock_wf (w : World) (e : Event) :
  stock_wf (sizes (state w)) → stock_wf (sizes (state (world_of (handle e w)))).
Proof.
  intros [Hall Hq]. rewrite handle_sizes. destruct e; try (by split).
  cbn zeta. split.
  - intros s. rewrite lookup_insert. case_decide; [eauto | apply Hall].
  - intros k v'. rewrite lookup_insert_Some.
    intros [[_ <-] | [_ Hk]]; [apply stored_quantity | by apply (Hq k)].
Qed.

Lemma zeroSizes_wf : stock_wf zeroSizes.
Proof.
  split.
  - intros s. rewrite zeroSizes_lookup. eauto.
  - intros k v Hk.
    assert (k ∈ labelSpace) as (s & ->)%labelSpace_labels
      by (rewrite <- zeroSizes_dom; apply elem_of_dom; eauto).
    rewrite zeroSizes_lookup in Hk. injection Hk as <-. by split.
Qed.

(** Every world the component can be in has a well-formed Stock Map. *)
Lemma reachable_stock_wf (w : World) : reachable w → stock_wf (sizes (state w)).
Proof.
  induction 1 as [now ctx enc | w e w' _ IH [_ Hstep]].
  - apply zeroSizes_wf.
  - apply (handle_stock_wf w e) in IH. by rewrite Hstep in IH.
Qed.

Lemma stock_wf_nonneg (r : SizeRecord) : stock_wf r → nonneg_stock r.
Proof. intros [_ Hq] k v Hk. by apply (Hq k v). Qed.

(** C4. Stock Map values are never negative.  [setStock] stores a value
    that is the one the spec describes (0 on a failed parse or a negative
    result, the parsed number otherwise; a parsed negative zero is stored
    as the positive zero it equals); no event handler turns a Stock Map
    without negative values into one with a negative value; and so every
    reachable world has a Stock Map of values [>= 0]. *)
Theorem stock_never_negative :
  (∀ w size raw, ∃ w' v,
      handleStockChange size raw w = Ok tt w'
      ∧ sizes (state w') !! label size = Some v
      ∧ num_ge v pos_zero = true
      ∧ strict_eq v (setStock_spec raw) = true
      ∧ (parseInt raw ≠ neg_zero → v = setStock_spec raw))
  ∧ (∀ w e, nonneg_stock (sizes (state w)) →
            nonneg_stock (sizes (state (world_of (handle e w)))))
  ∧ (∀ w, reachable w → nonneg_stock (sizes (state w))).
Proof.
  split_and!.
  - intros w size raw. do 2 eexists. split; [reflexivity|]. cbn.
    split; [apply lookup_insert_eq|].
    split; [apply stored_quantity|]. apply stored_spec.
  - apply handle_nonneg_stock.
  - intros w Hw. by apply stock_wf_nonneg, reachable_stock_wf.
Qed.

Lemma stock_never_negative_witness :
  nonneg_stock (sizes (state hoodie_world))
  ∧ nonneg_stock
      (sizes (state (world_of (handle (StockChange sz_M (str "-7")) hoodie_world)))).
Proof.
  pose proof (proj2 (proj2 stock_never_negative) hoodie_world hoodie_reachable) as H.
  split; [exact H|].
  exact (proj1 (proj2 stock_never_negative) hoodie_world _ H).
Defined.

(** The selection stays within the catalog of the current type. *)
Lemma reachable_selection (w : World) :
  reachable w → selection_in_catalog (state w).
Proof.
  induction 1 as [now ctx enc | w e w' _ IH [Hen Hstep]].
  - intros s Hs. cbn in Hs. by apply elem_of_nil in Hs.
  - pose proof (handle_selection e w) as [Hsel Hty].
    rewrite Hstep in Hsel, Hty. cbn [world_of] in Hsel, Hty.
    unfold selection_in_catalog. rewrite Hsel, Hty.
    destruct e; try exact IH.
    + intros s Hs. by apply elem_of_nil in Hs.
    + cbn in Hen. apply bool_decide_eq_true in Hen.
      intros s [[_ Hs] | [-> _]]%elem_of_toggle; [by apply IH | done].
Qed.

(** C6. Changing the product type empties Selected Sizes whatever was
    selected, and in every reachable world Selected Sizes lies within
    the catalog of the current type. *)
Theorem selection_within_catalog :
  (∀ w t, ∃ w',
      handle (TypeChange t) w = Ok tt w'
      ∧ currentSizes (state w') = []
      ∧ type (state w') = t)
  ∧ (∀ w, reachable w → selection_in_catalog (state w)).
Proof.
  split.
  - intros w t. eexists. split; [reflexivity|]. by split.
  - apply reachable_selection.
Qed.

Lemma selection_within_catalog_witness :
  selection_in_catalog (state hoodie_world)
  ∧ currentSizes (state hoodie_world) = [sz_M; sz_L].
Proof.
  split; [|reflexivity].
  exact (proj2 selection_within_catalog hoodie_world hoodie_reachable).
Defined.

(** ** Submission *)

Lemma parseFloat_empty : parseFloat [] = NaN.
Proof. reflexivity. Qed.

Lemma str_truthy_true (s : jsstring) : s ≠ [] → str_truthy s = true.
Proof. by destruct s. Qed.


(** A submission that passes both tests. *)
Lemma handleSubmit_valid (w : World) :
  trim (name (state w)) ≠ [] →
  num_gt (parseFloat (price (state w))) pos_zero = true →
  image (state w) ≠ [] →
  submit_accepted w (builtRequest w).
Proof.
  intros Hname Hprice Himage.
  assert (price (state w) ≠ []) as Hp.
  { intros Hnil. rewrite Hnil, parseFloat_empty in Hprice. discriminate. }
  apply num_gt_zero_iff in Hprice.
  unfold submit_accepted. rewrite handleSubmit_eq. cbn zeta.
  rewrite !str_truthy_true by done. cbn [negb orb]. by rewrite Hprice.
Qed.

Lemma run_cons (e : Event) (es : list Event) (w w1 : World) :
  enabled w e = true → handle e w = Ok tt w1 → run (e :: es) w = run es w1.
Proof. intros Hen Hrun. cbn [run]. by rewrite Hen, Hrun. Qed.

(** The size map of the request, key by key. *)
Lemma request_sizes_lookup (r : SizeRecord) (l : list Size) (size : Size) :
  spread zeroSizes
    (fromEntries (List.map (fun s => (label s, stockOf r s)) l)) !! label size
  = Some (if bool_decide (size ∈ l) then stockOf r size else pos_zero).
Proof.
  unfold spread. pose proof (fromEntries_lookup (stockOf r) l size) as H.
  case_bool_decide.
  - by apply lookup_union_Some_l.
  - rewrite lookup_union_r by done. apply zeroSizes_lookup.
Qed.

Lemma request_sizes_dom (r : SizeRecord) (l : list Size) :
  dom (spread zeroSizes
         (fromEntries (List.map (fun s => (label s, stockOf r s)) l)))
  = labelSpace.
Proof.
  unfold spread. rewrite dom_union_L, zeroSizes_dom.
  pose proof (fromEntries_dom (stockOf r) l) as H.
  apply set_eq. intros k. rewrite elem_of_union. split; [|tauto].
  intros [Hk|Hk]; [by apply H | done].
Qed.

Lemma stockOf_wf (r : SizeRecord) (size : Size) :
  stock_wf r → Some (stockOf r size) = r !! label size.
Proof.
  intros [Hall Hq]. unfold stockOf.
  destruct (Hall size) as [v Hv]. rewrite Hv.
  f_equal. apply or_default_quantity. by apply (Hq (label size)).
Qed.

(** C1. With a name that is not blank, a price text that parses to a
    number above zero and an image, submitting returns normally after
    exactly three calls: [preventDefault], the creation callback with the
    request, the close callback.  The request carries the trimmed name,
    the parsed price, the image, the type and the clock reading; its size
    map has the 19 labels as its keys, holds the Stock Map entry at every
    selected size and 0 at every other size.  The Stock Map is taken
    well-formed, as it is in every reachable world. *)
Theorem submit_builds_request (w : World) :
  stock_wf (sizes (state w)) →
  trim (name (state w)) ≠ [] →
  num_gt (parseFloat (price (state w))) pos_zero = true →
  image (state w) ≠ [] →
  ∃ p,
    submit_accepted w p
    ∧ product_name p = trim (name (state w))
    ∧ product_price p = parseFloat (price (state w))
    ∧ product_image p = image (state w)
    ∧ product_type p = type (state w)
    ∧ product_createdAt p = clock w
    ∧ dom (product_sizes p) = labelSpace
    ∧ (∀ size, size ∈ currentSizes (state w) →
         product_sizes p !! label size = sizes (state w) !! label size)
    ∧ (∀ size, size ∉ currentSizes (state w) →
         product_sizes p !! label size = Some pos_zero).
Proof.
  intros Hwf Hname Hprice Himage.
  exists (builtRequest w). split; [by apply handleSubmit_valid|].
  cbn. split_and!; try reflexivity.
  - apply request_sizes_dom.
  - intros size Hin. rewrite request_sizes_lookup.
    rewrite bool_decide_eq_true_2 by done. by apply stockOf_wf.
  - intros size Hout. rewrite request_sizes_lookup.
    by rewrite bool_decide_eq_false_2.
Qed.

Lemma submit_builds_request_witness :
  ∃ p,
    submit_accepted hoodie_world p
    ∧ product_name p = str "Red Hoodie"
    ∧ product_price p = S754_finite false 8792574584999117 (-45)
    ∧ product_sizes p !! label sz_M = Some (of_Z 5)
    ∧ product_sizes p !! label sz_L = Some (of_Z 3)
    ∧ product_sizes p !! label sz_XL = Some pos_zero
    ∧ product_sizes p !! label sz_42 = Some pos_zero
    ∧ dom (product_sizes p) = labelSpace.
Proof.
  destruct (submit_builds_request hoodie_world) as (p & Hacc & Hn & Hpr & _ & _ & _ & Hdom & Hsel & Hrest).
  - apply reachable_stock_wf, hoodie_reachable.
  - vm_compute. discriminate.
  - vm_compute. reflexivity.
  - vm_compute. discriminate.
  - exists p. split_and!; try done.
    + rewrite (Hsel sz_M); [by vm_compute | vm_compute; by left].
    + rewrite (Hsel sz_L); [by vm_compute | vm_compute; right; by left].
    + apply Hrest. vm_compute. by intros [[=]|[[=]|[]%elem_of_nil]%elem_of_cons]%elem_of_cons.
    + apply Hrest. vm_compute. by intros [[=]|[[=]|[]%elem_of_nil]%elem_of_cons]%elem_of_cons.
Defined.





(** C3, as the code has it.  Once the three presence tests have passed,
    a price text that parses to NaN or to a number [<= 0] is rejected
    with the price message and no request is built; a price text that
    parses to a number above zero is accepted with that number as the
    price, and [+Infinity] is such a number: validation does not ask for
    a finite price.  The two cases cover every price text. *)
Theorem price_validation (w : World) :
  trim (name (state w)) ≠ [] →
  price (state w) ≠ [] →
  image (state w) ≠ [] →
  (isNaN (parseFloat (price (state w))) = true
   ∨ num_le (parseFloat (price (state w))) pos_zero = true →
   submit_rejected w msg_price)
  ∧ (num_gt (parseFloat (price (state w))) pos_zero = true →
     ∃ p, submit_accepted w p ∧ product_price p = parseFloat (price (state w)))
  ∧ (parseFloat (price (state w)) = pos_infinity →
     ∃ p, submit_accepted w p ∧ product_price p = pos_infinity)
  ∧ (isNaN (parseFloat (price (state w))) || num_le (parseFloat (price (state w))) pos_zero
     = negb (num_gt (parseFloat (price (state w))) pos_zero)).
Proof.
  intros Hname Hp Himage.
  assert (handleSubmit w =
          Ok tt
            (if isNaN (parseFloat (price (state w)))
                || num_le (parseFloat (price (state w))) pos_zero
             then with_call (alert msg_price) (with_call preventDefault w)
             else with_call onClose
                    (with_call (onAdd (builtRequest w))
                       (with_call preventDefault w)))) as Heq.
  { rewrite handleSubmit_eq. cbn zeta. by rewrite !str_truthy_true. }
  assert (∀ x, num_gt x pos_zero = true →
               parseFloat (price (state w)) = x →
               ∃ p, submit_accepted w p ∧ product_price p = x) as Hacc.
  { intros x Hx Hpx. apply num_gt_zero_iff in Hx. rewrite <- Hpx in Hx.
    rewrite Hx in Heq. eexists. split; [exact Heq | by rewrite <- Hpx]. }
  split_and!.
  - intros Hbad. unfold submit_rejected. rewrite Heq.
    by destruct Hbad as [-> | ->]; rewrite ?orb_true_r.
  - intros Hgt. by apply Hacc.
  - intros Hinf. by apply Hacc.
  - by destruct (parseFloat (price (state w))) as [[]|[]| |[] m e].
Qed.

Lemma price_validation_witness :
  (∃ p, submit_accepted hoodie_world p
        ∧ product_price p = S754_finite false 8792574584999117 (-45))
  ∧ (∃ p, submit_accepted infinity_world p ∧ product_price p = pos_infinity).
Proof.
  split.
  - apply (proj1 (proj2 (price_validation hoodie_world
             ltac:(vm_compute; discriminate) ltac:(vm_compute; discriminate)
             ltac:(vm_compute; discriminate)))).
    vm_compute. reflexivity.
  - apply (proj1 (proj2 (proj2 (price_validation infinity_world
             ltac:(vm_compute; discriminate) ltac:(vm_compute; discriminate)
             ltac:(vm_compute; discriminate))))).
    vm_compute. reflexivity.
Defined.

(** C3, as the spec has it, fails: the price text ["Infinity"] does not
    parse to a finite number, and the submission is accepted, the
    request carrying an infinite price. *)
Lemma infinite_price_accepted :
  price (state infinity_world) = str "Infinity"
  ∧ isFinite (parseFloat (price (state infinity_world))) = false
  ∧ trace (world_of (handleSubmit infinity_world)) =
    trace infinity_world ++
    [preventDefault;
     onAdd (mkProduct (str "Boots") pos_infinity
              (str "data:image/png;base64,iVBORw0KGgo=") clothing zeroSizes
              (of_Z 1700000000000));
     onClose].
Proof. split_and!; by vm_compute. Qed.

(** ** The camera *)

(** C9. [stopCamera] never throws.  With no stream held it changes
    nothing; with a stream held it stops every track of it and clears
    the handle; in both cases a second call changes nothing.  It touches
    neither the state cells nor the video element nor the trace. *)
Theorem stopCamera_idempotent (w : World) :
  ∃ w1,
    stopCamera w = Ok tt w1
    ∧ stopCamera w1 = Ok tt w1
    ∧ streamRef w1 = None
    ∧ (streamRef w = None → w1 = w)
    ∧ (∀ stream, streamRef w = Some stream →
         (∀ t, t ∈ getTracks stream → t ∈ ended w1)
         ∧ ended w1 = list_to_set (getTracks stream) ∪ ended w)
    ∧ state w1 = state w
    ∧ videoRef w1 = videoRef w
    ∧ clock w1 = clock w
    ∧ trace w1 = trace w.
Proof.
  rewrite stopCamera_eq. eexists. split; [reflexivity|].
  destruct (streamRef w) as [stream|] eqn:Hcur.
  - split_and!; try done.
    intros ? [= <-]. split; [|done].
    intros t Ht. cbn. apply elem_of_union. left. by apply elem_of_list_to_set.
  - split_and!; try done.
    by rewrite stopCamera_eq, Hcur.
Qed.

Lemma stopCamera_idempotent_witness :
  ∃ w1,
    stopCamera camera_world = Ok tt w1
    ∧ stopCamera w1 = Ok tt w1
    ∧ streamRef w1 = None
    ∧ 1%nat ∈ ended w1 ∧ 2%nat ∈ ended w1.
Proof.
  destruct (stopCamera_idempotent camera_world)
    as (w1 & Hrun & Hagain & Hnone & _ & Hstop & _).
  exists w1. split_and!; try done.
  - apply (Hstop sample_stream); [reflexivity | by left].
  - apply (Hstop sample_stream); [reflexivity | right; by left].
Defined.

(** Without a video element, or without a 2D context, [capturePhoto]
    does nothing at all. *)
Lemma capturePhoto_without_preview (w : World) :
  videoRef w = None ∨ canvas2d w = false → capturePhoto w = Ok tt w.
Proof.
  rewrite capturePhoto_eq. intros [-> | ->]; [done|]. by destruct (videoRef w).
Qed.

(** [capturePhoto] on its own, past its two guards.  With a video
    element in [videoRef.current] and a 2D context at hand,
    [capturePhoto] stores as the image what the canvas encoder returns, asked for ["image/jpeg"], on a canvas of the
    video's [videoWidth] by [videoHeight] holding the current frame drawn
    at the origin; it then runs [stopCamera]: the handle is cleared and,
    if a stream was held, each of its tracks is stopped.  Nothing else
    changes. *)
Theorem capturePhoto_with_preview (w : World) (video : HTMLVideoElement) :
  videoRef w = Some video →
  canvas2d w = true →
  ∃ w',
    capturePhoto w = Ok tt w'
    ∧ image (state w') =
        toDataURL w
          (mkCanvas (videoWidth video) (videoHeight video)
                    [DrawImage (currentFrame video) 0 0])
          (str "image/jpeg")
    ∧ streamRef w' = None
    ∧ (∀ stream, streamRef w = Some stream →
         ∀ t, t ∈ getTracks stream → t ∈ ended w')
    ∧ name (state w') = name (state w)
    ∧ price (state w') = price (state w)
    ∧ type (state w') = type (state w)
    ∧ currentSizes (state w') = currentSizes (state w)
    ∧ sizes (state w') = sizes (state w)
    ∧ videoRef w' = videoRef w
    ∧ trace w' = trace w.
Proof.
  intros Hvideo Hctx. rewrite capturePhoto_eq, Hvideo, Hctx. cbn zeta.
  rewrite stopCamera_eq. eexists. split; [reflexivity|].
  cbn. destruct (streamRef w) as [stream|] eqn:Hcur; cbn.
  - split_and!; try done.
    intros ? [= <-] t Ht. apply elem_of_union. left. by apply elem_of_list_to_set.
  - split_and!; done.
Qed.

Lemma capturePhoto_with_preview_witness :
  ∃ w',
    capturePhoto preview_world = Ok tt w'
    ∧ image (state w') = str "data:image/jpeg;base64,/9j/4AAQ"
    ∧ streamRef w' = None
    ∧ 1%nat ∈ ended w' ∧ 2%nat ∈ ended w'.
Proof.
  destruct (capturePhoto_with_preview preview_world
              (mkVideo (Some sample_stream) 640 480 7%N) eq_refl eq_refl)
    as (w' & Hrun & Himg & Hnone & Hstop & _).
  exists w'. split_and!; try done.
  - apply (Hstop sample_stream); [reflexivity | by left].
  - apply (Hstop sample_stream); [reflexivity | right; by left].
Defined.

(** The overlay with the [video] element is never rendered: no reachable
    world has an element in [videoRef.current]. *)
Lemma reachable_no_video (w : World) : reachable w → videoRef w = None.
Proof.
  induction 1 as [now ctx enc | w e w' _ IH [_ Hstep]]; [done|].
  assert (videoRef (world_of (handle e w)) = None) as H; [|by rewrite Hstep in H].
  destruct e; cbn [handle]; try exact IH.
  - by destruct file.
  - destruct settled as [err|stream]; [exact IH|].
    unfold startCamera_resume, bind, get, ret. cbn. by rewrite IH.
  - by rewrite capturePhoto_without_preview by (by left).
  - rewrite stopCamera_eq. by destruct (streamRef w).
  - rewrite handleSubmit_eq. cbn. by repeat destruct (_ || _).
Qed.

(** In the world reached by granting the camera, a stream is held and
    both its tracks are live, yet [capturePhoto] returns without storing
    an image, stopping a track or clearing the handle. *)
Lemma capturePhoto_stream_only :
  reachable camera_world
  ∧ streamRef camera_world = Some sample_stream
  ∧ ended camera_world = ∅
  ∧ capturePhoto camera_world = Ok tt camera_world
  ∧ image (state camera_world) = [].
Proof.
  split_and!; try done.
  by apply (run_reachable [CameraClick; CameraSettled (inr sample_stream)]
              sample_mount); [constructor|].
Qed.

(** Stopping a track takes the camera's cancel button or a capture that
    passes its guards; without a [video] element neither happens. *)
Lemma reachable_no_track_ended (w : World) : reachable w → ended w = ∅.
Proof.
  induction 1 as [now ctx enc | w e w' Hw IH [Hen Hstep]]; [done|].
  pose proof (reachable_no_video w Hw) as Hv.
  assert (ended (world_of (handle e w)) = ∅) as H; [|by rewrite Hstep in H].
  destruct e; cbn [handle]; try exact IH.
  - by destruct file.
  - destruct settled as [err|stream]; [exact IH|].
    unfold startCamera_resume, bind, get, ret. cbn. by rewrite Hv.
  - by rewrite capturePhoto_without_preview by (by left).
  - cbn in Hen. by rewrite Hv in Hen.
  - rewrite handleSubmit_eq. cbn. by repeat destruct (_ || _).
Qed.

(** C8.  The code misses what the claim says.  After the camera button
    is clicked and the stream granted, the stream is held with both its
    tracks live, but the overlay with the [video] element and its two
    buttons is rendered only when [videoRef.current] is already set, which
    it never is: no capture and no camera cancel can be delivered,
    [capturePhoto] itself returns at its first guard with the world as it
    was, and in no world reached from there is a track stopped or a
    [video] element present. *)
Theorem granted_camera_cannot_capture :
  run [CameraClick; CameraSettled (inr sample_stream)] sample_mount
  = Some camera_world
  ∧ streamRef camera_world = Some sample_stream
  ∧ ended camera_world = ∅
  ∧ videoRef camera_world = None
  ∧ enabled camera_world CaptureClick = false
  ∧ enabled camera_world CameraCancelClick = false
  ∧ capturePhoto camera_world = Ok tt camera_world
  ∧ image (state camera_world) = []
  ∧ (∀ es w',
       run es camera_world = Some w' →
       videoRef w' = None
       ∧ ended w' = ∅
       ∧ enabled w' CaptureClick = false
       ∧ enabled w' CameraCancelClick = false).
Proof.
  split_and!; try done.
  intros es w' Hrun.
  assert (reachable w') as Hw'.
  { apply (run_reachable es camera_world); [|done].
    by apply (run_reachable [CameraClick; CameraSettled (inr sample_stream)]
                sample_mount); [constructor|]. }
  pose proof (reachable_no_video w' Hw') as Hv.
  split_and!; [done | by apply reachable_no_track_ended | |]; cbn; by rewrite Hv.
Qed.

Lemma granted_camera_cannot_capture_witness :
  ∃ w',
    run [NameChange (str "Boots"); CameraClick;
         CameraSettled (inr (mkStream [3%nat]))] camera_world = Some w'
    ∧ ended w' = ∅
    ∧ enabled w' CaptureClick = false.
Proof.
  destruct (run [NameChange (str "Boots"); CameraClick;
                 CameraSettled (inr (mkStream [3%nat]))] camera_world)
    as [w'|] eqn:Hrun; [|by vm_compute in Hrun].
  exists w'. split; [done|].
  destruct (proj2 (proj2 (proj2 (proj2 (proj2 (proj2 (proj2 (proj2
              granted_camera_cannot_capture))))))) _ w' Hrun)
    as (_ & He & Hc & _).
  by split.
Defined.

(** ** Stale stock *)

Lemma positive_stored (p : number) :
  num_gt p pos_zero = true →
  or_default p pos_zero = p ∧ num_ge p pos_zero = true.
Proof. by destruct p as [[]|[]| |[] m e]. Qed.

(** C10. Deselecting a size or changing the type leaves the whole Stock
    Map as it was.  As a result, in any world with a valid name, price
    and image where [size] is selected, entering a stock text that parses
    to [q > 0], toggling [size] off, toggling it on again and submitting
    calls the creation callback with a size map holding the old [q] at
    [size], not 0. *)
Theorem stale_stock_resurfaces :
  (∀ w size, ∃ w',
      handleSizeToggle size w = Ok tt w' ∧ sizes (state w') = sizes (state w))
  ∧ (∀ w t, ∃ w',
      handle (TypeChange t) w = Ok tt w' ∧ sizes (state w') = sizes (state w))
  ∧ (∀ w size raw,
      size ∈ currentSizes (state w) →
      size ∈ catalog (type (state w)) →
      trim (name (state w)) ≠ [] →
      num_gt (parseFloat (price (state w))) pos_zero = true →
      image (state w) ≠ [] →
      num_gt (parseInt raw) pos_zero = true →
      ∃ w1 w2 w3 w' p,
        handle (StockChange size raw) w = Ok tt w1
        ∧ handle (SizeClick size) w1 = Ok tt w2
        ∧ (size ∉ currentSizes (state w2))
        ∧ sizes (state w2) !! label size = Some (parseInt raw)
        ∧ handle (SizeClick size) w2 = Ok tt w3
        ∧ handle Submit w3 = Ok tt w'
        ∧ (run [StockChange size raw; SizeClick size; SizeClick size; Submit] w)
          = Some w'
        ∧ trace w' = trace w ++ [preventDefault; onAdd p; onClose]
        ∧ product_sizes p !! label size = Some (parseInt raw)
        ∧ strict_eq (parseInt raw) pos_zero = false).
Proof.
  split_and!.
  - intros w size. by eexists.
  - intros w t. by eexists.
  - intros w size raw Hsel Hcat Hname Hprice Himage Hq.
    destruct (positive_stored _ Hq) as [Hor Hge].
    set (w1 := world_of (handle (StockChange size raw) w)).
    set (w2 := world_of (handle (SizeClick size) w1)).
    set (w3 := world_of (handle (SizeClick size) w2)).
    assert (sizes (state w3) = <[label size := parseInt raw]> (sizes (state w)))
      as Hsizes by (cbn; by rewrite Hor, Hge).
    assert (currentSizes (state w2) = toggle size (currentSizes (state w)))
      as Hc2 by reflexivity.
    assert (currentSizes (state w3) = toggle size (toggle size (currentSizes (state w))))
      as Hc3 by reflexivity.
    assert (submit_accepted w3 (builtRequest w3)) as Hacc
      by (by apply handleSubmit_valid).
    exists w1, w2, w3.
    exists (with_call onClose (with_call (onAdd (builtRequest w3))
                                 (with_call preventDefault w3))).
    exists (builtRequest w3).
    split_and!; try reflexivity.
    + rewrite Hc2, elem_of_toggle. tauto.
    + change (sizes (state w2)) with (sizes (state w3)).
      rewrite Hsizes. apply lookup_insert_eq.
    + exact Hacc.
    + rewrite (run_cons _ _ w w1); [| by apply bool_decide_eq_true_2 | done].
      rewrite (run_cons _ _ w1 w2); [| by apply bool_decide_eq_true_2 | done].
      rewrite (run_cons _ _ w2 w3); [| by apply bool_decide_eq_true_2 | done].
      rewrite (run_cons Submit [] w3 _ eq_refl Hacc). reflexivity.
    + cbn. by rewrite <- !app_assoc.
    + cbn [builtRequest product_sizes].
      rewrite request_sizes_lookup, bool_decide_eq_true_2.
      * unfold stockOf. by rewrite Hsizes, lookup_insert_eq, Hor.
      * rewrite Hc3, !elem_of_toggle. tauto.
    + by destruct (parseInt raw) as [[]|[]| |[] m e].
Qed.

Lemma stale_stock_resurfaces_witness :
  ∃ w' p,
    run [StockChange sz_M (str "5"); SizeClick sz_M; SizeClick sz_M; Submit]
        hoodie_world = Some w'
    ∧ trace w' = trace hoodie_world ++ [preventDefault; onAdd p; onClose]
    ∧ product_sizes p !! label sz_M = Some (of_Z 5).
Proof.
  destruct (proj2 (proj2 stale_stock_resurfaces) hoodie_world sz_M (str "5"))
    as (w1 & w2 & w3 & w' & p & _ & _ & _ & _ & _ & _ & Hrun & Htr & Hp & _).
  - vm_compute. by left.
  - vm_compute. right. by left.
  - vm_compute. discriminate.
  - vm_compute. reflexivity.
  - vm_compute. discriminate.
  - vm_compute. reflexivity.
  - by exists w', p.
Defined.

(** The guarantee of C6 comes from the rendered buttons, not from the
    handler: called with a shoe size while the type is clothing,
    [handleSizeToggle] selects it. *)
Example handleSizeToggle_unguarded :
  type (state sample_mount) = clothing
  ∧ enabled sample_mount (SizeClick sz_36) = false
  ∧ currentSizes (state (world_of (handleSizeToggle sz_36 sample_mount))) = [sz_36].
Proof. by split_and!. Qed.


(** * Further properties of the component *)

(** ** Camera acquisition *)

Lemma startCamera_resume_granted (stream : MediaStream) (w : World) :
  startCamera_resume (inr stream) w =
  Ok tt (with_streamRef (Some stream)
           match videoRef w with
           | Some video =>
               with_videoRef
                 (Some (mkVideo (Some stream) (videoWidth video)
                                (videoHeight video) (currentFrame video))) w
           | None => w
           end).
Proof.
  unfold startCamera_resume, bind, get, ret. cbn.
  by destruct (videoRef w).
Qed.

(** X1. A second grant replaces the stream handle without stopping the
    first stream: after two grants and one [stopCamera] the handle is
    cleared and the tracks of the second stream are stopped, but a track
    of the first stream that is not also in the second is exactly as
    live as it was before. *)
Theorem second_grant_leaks_first (w : World) (s1 s2 : MediaStream) :
  ∃ w1 w2 w3,
    startCamera_resume (inr s1) w = Ok tt w1
    ∧ startCamera_resume (inr s2) w1 = Ok tt w2
    ∧ stopCamera w2 = Ok tt w3
    ∧ streamRef w3 = None
    ∧ ended w3 = list_to_set (getTracks s2) ∪ ended w
    ∧ (∀ t, t ∈ getTracks s1 → t ∉ getTracks s2 →
         (t ∈ ended w3 ↔ t ∈ ended w)).
Proof.
  rewrite startCamera_resume_granted. eexists. eexists. eexists.
  split; [reflexivity|]. rewrite startCamera_resume_granted.
  split; [reflexivity|]. rewrite stopCamera_eq.
  split; [reflexivity|]. cbn.
  assert (∀ u : World,
            ended match videoRef u with
                  | Some video =>
                      with_videoRef
                        (Some (mkVideo (Some s1) (videoWidth video)
                                 (videoHeight video) (currentFrame video))) u
                  | None => u
                  end = ended u) as He1 by (intros u; by destruct (videoRef u)).
  destruct (videoRef _) eqn:Hv2; cbn; rewrite He1.
  all: split_and!; try done.
  all: intros t _ Hout; rewrite elem_of_union, elem_of_list_to_set; tauto.
Qed.

(** X2. The camera cannot be released from the page: in every reachable
    world there is no [video] element, so neither the capture button nor
    the camera's cancel button exists, and no track has ever been
    stopped, whatever streams were granted. *)
Theorem camera_never_released (w : World) :
  reachable w →
  videoRef w = None
  ∧ ended w = ∅
  ∧ enabled w CaptureClick = false
  ∧ enabled w CameraCancelClick = false.
Proof.
  intros Hw.
  enough (videoRef w = None ∧ ended w = ∅) as [Hv He]
    by (cbn; by rewrite Hv).
  induction Hw as [now ctx enc | w e w' _ [IHv IHe] [Hen Hstep]]; [done|].
  assert (videoRef (world_of (handle e w)) = None
          ∧ ended (world_of (handle e w)) = ∅) as H;
    [|by rewrite Hstep in H].
  destruct e; cbn [handle]; try (split; [exact IHv | exact IHe]).
  - by destruct file.
  - destruct settled as [err|stream]; [done|].
    by rewrite startCamera_resume_granted, IHv.
  - by rewrite capturePhoto_without_preview by (by left).
  - cbn in Hen. by rewrite IHv in Hen.
  - rewrite handleSubmit_eq. cbn. by repeat destruct (_ || _).
Qed.

Lemma camera_never_released_witness :
  streamRef camera_world = Some sample_stream
  ∧ ended camera_world = ∅
  ∧ enabled camera_world CameraCancelClick = false.
Proof.
  split; [reflexivity|].
  destruct (camera_never_released camera_world) as (_ & He & _ & Hc); [|done].
  by apply (run_reachable [CameraClick; CameraSettled (inr sample_stream)]
              sample_mount); [constructor|].
Defined.

(** X3. With a [video] element present, a granted stream is attached to
    it as [srcObject]; [stopCamera] then stops the tracks and clears the
    handle but leaves the element attached to the stopped stream. *)
Theorem stopCamera_keeps_srcObject (w : World) (video : HTMLVideoElement)
    (stream : MediaStream) :
  videoRef w = Some video →
  ∃ w1 w2,
    startCamera_resume (inr stream) w = Ok tt w1
    ∧ (srcObject <$> videoRef w1) = Some (Some stream)
    ∧ stopCamera w1 = Ok tt w2
    ∧ streamRef w2 = None
    ∧ (∀ t, t ∈ getTracks stream → t ∈ ended w2)
    ∧ videoRef w2 =
        Some (mkVideo (Some stream) (videoWidth video) (videoHeight video)
                      (currentFrame video)).
Proof.
  intros Hv. rewrite startCamera_resume_granted, Hv.
  do 2 eexists. split; [reflexivity|]. split; [reflexivity|].
  rewrite stopCamera_eq. split; [reflexivity|]. cbn. split_and!; try done.
  intros t Ht. apply elem_of_union. left. by apply elem_of_list_to_set.
Qed.

Lemma stopCamera_keeps_srcObject_witness :
  ∃ w1 w2,
    startCamera_resume (inr sample_stream) video_mount = Ok tt w1
    ∧ stopCamera w1 = Ok tt w2
    ∧ videoRef w2 = Some (mkVideo (Some sample_stream) 640 480 7%N)
    ∧ 1%nat ∈ ended w2.
Proof.
  destruct (stopCamera_keeps_srcObject video_mount
              (mkVideo None 640 480 7%N) sample_stream eq_refl)
    as (w1 & w2 & H1 & _ & H2 & _ & Hend & Hv).
  exists w1, w2. split_and!; try done. apply Hend. by left.
Defined.

(** ** Submission, in full *)

Lemma str_truthy_iff (s : jsstring) : str_truthy s = true ↔ s ≠ [].
Proof. destruct s; cbn; split; congruence. Qed.

Lemma fields_missing_iff (s : State) :
  negb (str_truthy (trim (name s))) || negb (str_truthy (price s))
    || negb (str_truthy (image s)) = true
  ↔ blank (name s) ∨ price s = [] ∨ image s = [].
Proof.
  rewrite !orb_true_iff, !negb_true_iff, !str_truthy_false, trim_nil_iff.
  tauto.
Qed.

(** X4. What a submission does, in every world.  It returns normally and
    changes no state cell, ref, track or clock.  If the name is blank or
    the price text or the image is empty, it alerts the missing-fields
    message, whatever the price text is; otherwise, if the price does not
    parse to a number above zero, it alerts the price message; otherwise
    it calls the creation callback with the request and then the close
    callback.  Nothing else is called. *)
Theorem submit_outcome (w : World) :
  ∃ w',
    handleSubmit w = Ok tt w'
    ∧ state w' = state w
    ∧ streamRef w' = streamRef w
    ∧ videoRef w' = videoRef w
    ∧ ended w' = ended w
    ∧ clock w' = clock w
    ∧ (((blank (name (state w)) ∨ price (state w) = [] ∨ image (state w) = [])
        ∧ trace w' = trace w ++ [preventDefault; alert msg_fields])
       ∨ (¬ (blank (name (state w)) ∨ price (state w) = [] ∨ image (state w) = [])
          ∧ num_gt (parseFloat (price (state w))) pos_zero = false
          ∧ trace w' = trace w ++ [preventDefault; alert msg_price])
       ∨ (¬ (blank (name (state w)) ∨ price (state w) = [] ∨ image (state w) = [])
          ∧ num_gt (parseFloat (price (state w))) pos_zero = true
          ∧ trace w' =
              trace w ++ [preventDefault; onAdd (builtRequest w); onClose])).
Proof.
  rewrite handleSubmit_eq. cbn zeta. eexists. split; [reflexivity|].
  pose proof (fields_missing_iff (state w)) as Hm.
  pose proof (num_gt_zero_iff (parseFloat (price (state w)))) as Hgt.
  destruct (_ || _ || _) eqn:Hfields.
  - split_and!; try done. left. split; [by apply Hm|].
    cbn. by rewrite <- app_assoc.
  - assert (¬ (blank (name (state w)) ∨ price (state w) = []
               ∨ image (state w) = [])) as Hpresent.
    { intros H. apply Hm in H. discriminate. }
    destruct (isNaN _ || num_le _ _) eqn:Hprice.
    + split_and!; try done. right. left. split; [done|].
      split; [|cbn; by rewrite <- app_assoc].
      destruct (num_gt _ _); [|done]. by destruct Hgt as [-> _].
    + split_and!; try done. right. right. split; [done|].
      split; [by apply Hgt | cbn; by rewrite <- !app_assoc].
Qed.

Lemma blank_parseFloat (p : jsstring) : blank p → parseFloat p = NaN.
Proof. intros H. apply trimStart_nil_iff in H. unfold parseFloat. by rewrite H. Qed.

(** X5. Only the name is trimmed before the presence test.  A price text
    made of white space only counts as present: with a name and an image
    it is rejected with the price message, not the missing-fields one. *)
Theorem blank_price_is_invalid_price (w : World) :
  ¬ blank (name (state w)) →
  price (state w) ≠ [] →
  blank (price (state w)) →
  image (state w) ≠ [] →
  submit_rejected w msg_price.
Proof.
  intros Hname Hp Hblank Himage.
  unfold submit_rejected. rewrite handleSubmit_eq. cbn zeta.
  rewrite (str_truthy_true (price (state w))), (str_truthy_true (image (state w)))
    by done.
  rewrite (str_truthy_true (trim (name (state w))))
    by (by rewrite trim_nil_iff).
  cbn [negb orb]. by rewrite blank_parseFloat.
Qed.

Lemma blank_price_is_invalid_price_witness :
  price (state blank_price_world) = str "  "
  ∧ submit_rejected blank_price_world msg_price.
Proof.
  split; [reflexivity|].
  apply blank_price_is_invalid_price.
  - vm_compute. intros H. inversion H as [|? ? Hc _]. discriminate Hc.
  - vm_compute. discriminate.
  - vm_compute. repeat constructor.
  - vm_compute. discriminate.
Defined.



(** ** Requests *)

Lemma request_sizes_nonneg (r : SizeRecord) (l : list Size) :
  stock_wf r →
  nonneg_stock
    (spread zeroSizes
       (fromEntries (List.map (fun s => (label s, stockOf r s)) l))).
Proof.
  intros Hwf k v Hk.
  assert (k ∈ labelSpace) as (size & ->)%labelSpace_labels.
  { rewrite <- (request_sizes_dom r l). apply elem_of_dom. eauto. }
  rewrite request_sizes_lookup in Hk. injection Hk as <-.
  case_bool_decide; [|done].
  pose proof (stockOf_wf r size Hwf) as Hs. symmetry in Hs.
  destruct Hwf as [_ Hq]. by apply Hq in Hs as [Hge _].
Qed.

(** The calls an event adds to the trace; the creation callback is
    called only by a submit event that passes both tests, with the
    request built from the world the event arrived in. *)
Lemma handle_trace (e : Event) (w : World) :
  ∃ cs,
    trace (world_of (handle e w)) = trace w ++ cs
    ∧ ∀ p, onAdd p ∈ cs →
        p = builtRequest w
        ∧ trim (name (state w)) ≠ []
        ∧ image (state w) ≠ []
        ∧ num_gt (parseFloat (price (state w))) pos_zero = true.
Proof.
  assert (∀ p, onAdd p ∈ @nil Call → False) as Hnil
    by (intros p []%elem_of_nil).
  destruct e; cbn [handle].
  1-6: exists []; cbn; rewrite app_nil_r; split; [done | intros p H; by apply Hnil in H].
  - exists [fileInput_click]. split; [done|]. intros p [=]%list_elem_of_singleton.
  - destruct file; [exists [readAsDataURL n] | exists []]; cbn; rewrite ?app_nil_r.
    + split; [done|]. intros p [=]%list_elem_of_singleton.
    + split; [done|]. intros p H. by apply Hnil in H.
  - exists []. cbn. rewrite app_nil_r. split; [done|]. intros p H. by apply Hnil in H.
  - exists [getUserMedia]. split; [done|]. intros p [=]%list_elem_of_singleton.
  - destruct settled as [err|stream].
    + exists [console_error (str "Error accessing camera:") err; alert msg_camera].
      split; [cbn; by rewrite <- app_assoc|].
      intros p [[=]|[[=]|[]%elem_of_nil]%elem_of_cons]%elem_of_cons.
    + exists []. rewrite startCamera_resume_granted, app_nil_r. cbn.
      split; [by destruct (videoRef w) | intros p H; by apply Hnil in H].
  - exists []. rewrite capturePhoto_eq, app_nil_r.
    split; [| intros p H; by apply Hnil in H].
    destruct (videoRef w), (canvas2d w); try done.
    rewrite stopCamera_eq. cbn. by destruct (streamRef w).
  - exists []. rewrite stopCamera_eq, app_nil_r.
    split; [by destruct (streamRef w) | intros p H; by apply Hnil in H].
  - exists [onClose]. split; [done|]. intros p [=]%list_elem_of_singleton.
  - rewrite handleSubmit_eq. cbn zeta.
    destruct (_ || _ || _) eqn:Hfields.
    { exists [preventDefault; alert msg_fields].
      split; [cbn; by rewrite <- app_assoc|].
      intros p [[=]|[[=]|[]%elem_of_nil]%elem_of_cons]%elem_of_cons. }
    destruct (isNaN _ || num_le _ _) eqn:Hprice.
    { exists [preventDefault; alert msg_price].
      split; [cbn; by rewrite <- app_assoc|].
      intros p [[=]|[[=]|[]%elem_of_nil]%elem_of_cons]%elem_of_cons. }
    exists [preventDefault; onAdd (builtRequest w); onClose].
    split; [cbn; by rewrite <- !app_assoc|].
    intros p [[=]|[[= ->]|[[=]|[]%elem_of_nil]%elem_of_cons]%elem_of_cons]%elem_of_cons.
    apply orb_false_iff in Hfields as [[Hn Hp]%orb_false_iff Hi].
    apply negb_false_iff, str_truthy_iff in Hn, Hi.
    split_and!; try done. by apply num_gt_zero_iff.
  - exists []. cbn. rewrite app_nil_r. split; [done|]. intros p H. by apply Hnil in H.
Qed.

Lemma builtRequest_valid (w : World) :
  stock_wf (sizes (state w)) →
  trim (name (state w)) ≠ [] →
  image (state w) ≠ [] →
  num_gt (parseFloat (price (state w))) pos_zero = true →
  valid_request (builtRequest w).
Proof.
  intros Hwf Hname Himage Hprice. unfold valid_request. cbn.
  split_and!; try done.
  - apply request_sizes_dom.
  - by apply request_sizes_nonneg.
Qed.

(** X7. Every request the component has ever passed to the creation
    callback is valid: in a reachable world, each [onAdd] call in the
    trace carries a non-empty name, a price above zero, a non-empty
    image, and a size map over exactly the 19 labels with no negative
    value. *)
Theorem every_added_request_valid (w : World) (p : Product) :
  reachable w →
  onAdd p ∈ trace w →
  valid_request p.
Proof.
  intros Hw. revert p.
  induction Hw as [now ctx enc | w e w' Hw IH [_ Hstep]]; intros p Hp.
  - by apply elem_of_nil in Hp.
  - destruct (handle_trace e w) as (cs & Htr & Hcs).
    rewrite Hstep in Htr. cbn [world_of] in Htr. rewrite Htr in Hp.
    apply elem_of_app in Hp as [Hp | Hp]; [by apply IH|].
    apply Hcs in Hp as (-> & Hname & Himage & Hprice).
    apply builtRequest_valid; try done. by apply reachable_stock_wf.
Qed.

Lemma every_added_request_valid_witness :
  ∃ w' p,
    run [Submit] hoodie_world = Some w'
    ∧ onAdd p ∈ trace w'
    ∧ valid_request p.
Proof.
  destruct (run [Submit] hoodie_world) as [w'|] eqn:Hrun; [|by vm_compute in Hrun].
  exists w', (builtRequest hoodie_world).
  assert (onAdd (builtRequest hoodie_world) ∈ trace w') as Hin.
  { vm_compute in Hrun. injection Hrun as <-. cbn [trace].
    apply list_elem_of_In. cbn. tauto. }
  split; [done|]. split; [exact Hin|].
  apply (every_added_request_valid w'); [|exact Hin].
  apply (run_reachable [Submit] hoodie_world); [apply hoodie_reachable | exact Hrun].
Defined.

(** X8. Stock left on sizes of the other product type is not sent: in a
    reachable world a valid submission passes a request whose size map is
    0 at every size outside the catalog of the current type, whatever the
    Stock Map holds there. *)
Theorem other_catalog_sizes_are_zero (w : World) :
  reachable w →
  ¬ blank (name (state w)) →
  num_gt (parseFloat (price (state w))) pos_zero = true →
  image (state w) ≠ [] →
  ∃ p,
    submit_accepted w p
    ∧ ∀ size, size ∉ catalog (type (state w)) →
        product_sizes p !! label size = Some pos_zero.
Proof.
  intros Hw Hname Hprice Himage.
  exists (builtRequest w). split.
  - apply handleSubmit_valid; try done. by rewrite trim_nil_iff.
  - intros size Hout. cbn. rewrite request_sizes_lookup.
    rewrite bool_decide_eq_false_2; [done|].
    intros Hin. by apply Hout, (reachable_selection w Hw).
Qed.

Lemma other_catalog_sizes_are_zero_witness :
  sizes (state switched_world) !! label sz_M = Some (of_Z 5)
  ∧ ∃ p,
      submit_accepted switched_world p
      ∧ product_sizes p !! label sz_M = Some pos_zero.
Proof.
  split; [by vm_compute|].
  destruct (other_catalog_sizes_are_zero switched_world) as (p & Hacc & Hz).
  - apply (run_reachable [TypeChange shoes] hoodie_world);
      [apply hoodie_reachable | reflexivity].
  - vm_compute. intros H. inversion H as [|? ? Hc _]. discriminate Hc.
  - vm_compute. reflexivity.
  - vm_compute. discriminate.
  - exists p. split; [done|]. apply Hz. vm_compute.
    intros H. apply list_elem_of_In in H. cbn in H.
    repeat (destruct H as [H|H]; [discriminate H|]). done.
Defined.

(** X9. The size map of a request depends on which sizes are selected,
    not on the order they were selected in nor on repetitions: two
    worlds with the same Stock Map and the same set of selected sizes
    build the same size map. *)
Theorem request_sizes_by_selection_set (w1 w2 : World) :
  sizes (state w1) = sizes (state w2) →
  (∀ size, size ∈ currentSizes (state w1) ↔ size ∈ currentSizes (state w2)) →
  product_sizes (builtRequest w1) = product_sizes (builtRequest w2).
Proof.
  intros Hsizes Hsel. apply map_eq. intros k. cbn. rewrite Hsizes.
  destruct (decide (k ∈ labelSpace)) as [(size & ->)%labelSpace_labels | Hout].
  - rewrite !request_sizes_lookup. f_equal.
    destruct (decide (size ∈ currentSizes (state w1))) as [Hin|Hout].
    + rewrite !bool_decide_eq_true_2; [done | by apply Hsel | done].
    + rewrite !bool_decide_eq_false_2; [done | by rewrite <- Hsel | done].
  - transitivity (@None number); [|symmetry].
    all: apply not_elem_of_dom; by rewrite request_sizes_dom.
Qed.

Lemma request_sizes_by_selection_set_witness :
  currentSizes (state hoodie_world) = [sz_M; sz_L]
  ∧ currentSizes (state hoodie_world_LM) = [sz_L; sz_M]
  ∧ product_sizes (builtRequest hoodie_world)
    = product_sizes (builtRequest hoodie_world_LM).
Proof.
  split; [reflexivity|]. split; [reflexivity|].
  apply request_sizes_by_selection_set.
  - by vm_compute.
  - intros size. change (size ∈ [sz_M; sz_L] ↔ size ∈ [sz_L; sz_M]).
    rewrite !elem_of_cons, !elem_of_nil. tauto.
Defined.

(** ** The Stock Map and the selection *)

(** X10. Stock edits compose as writes to a map: of two edits of the
    same size the later one alone counts, and edits of two different
    sizes give the same world in either order. *)
Theorem stock_edits_compose (w : World) (s1 s2 : Size) (v1 v2 : jsstring) :
  world_of (handleStockChange s1 v2 (world_of (handleStockChange s1 v1 w)))
  = world_of (handleStockChange s1 v2 w)
  ∧ (s1 ≠ s2 →
     world_of (handleStockChange s2 v2 (world_of (handleStockChange s1 v1 w)))
     = world_of (handleStockChange s1 v1 (world_of (handleStockChange s2 v2 w)))).
Proof.
  split.
  - cbn. unfold with_state. cbn. by rewrite insert_insert_eq.
  - intros Hne. cbn. unfold with_state. cbn.
    rewrite insert_insert_ne; [done|].
    intros Heq. by apply label_inj in Heq.
Qed.

(** X11. The Stock Map keeps its shape: in every reachable world its
    keys are exactly the 19 size labels, and no value in it is NaN or
    the negative zero. *)
Theorem stock_map_shape (w : World) :
  reachable w →
  dom (sizes (state w)) = labelSpace
  ∧ ∀ k v, sizes (state w) !! k = Some v → isNaN v = false ∧ v ≠ neg_zero.
Proof.
  intros Hw. split.
  - induction Hw as [now ctx enc | w e w' Hw IH [_ Hstep]].
    + apply zeroSizes_dom.
    + pose proof (handle_sizes e w) as Hs. rewrite Hstep in Hs.
      cbn [world_of] in Hs. rewrite Hs.
      destruct e; try exact IH.
      cbn zeta. rewrite dom_insert_L, IH.
      pose proof (label_in_space size) as Hin.
      apply set_eq. intros k. rewrite elem_of_union, elem_of_singleton.
      split; [intros [-> | Hk]; done | tauto].
  - intros k v Hk. apply reachable_stock_wf in Hw as [_ Hq].
    apply Hq in Hk as [Hge Hnz]. split; [|done].
    by destruct v as [[]|[]| |[] m e].
Qed.

Lemma stock_map_shape_witness :
  dom (sizes (state hoodie_world)) = labelSpace
  ∧ size (dom (sizes (state hoodie_world))) = 19%nat.
Proof.
  destruct (stock_map_shape hoodie_world hoodie_reachable) as [Hdom _].
  split; [exact Hdom|]. rewrite Hdom. by vm_compute.
Defined.

Lemma toggle_NoDup (size : Size) (l : list Size) :
  NoDup l → NoDup (toggle size l).
Proof.
  intros Hl. destruct (decide (size ∈ l)) as [Hin|Hout].
  - rewrite toggle_member by done. by apply NoDup_filter.
  - rewrite toggle_absent by done. apply NoDup_app. split_and!; [done| |].
    + intros x Hx ->%list_elem_of_singleton. done.
    + apply NoDup_singleton.
Qed.

Lemma catalog_NoDup (t : ProductType) : NoDup (catalog t).
Proof. destruct t; apply NoDup_ListNoDup; repeat constructor; cbn; intuition discriminate. Qed.

(** X12. No size is selected twice: in every reachable world Selected
    Sizes has no repetition, hence at most as many elements as the
    catalog of the current type, 10 at the most. *)
Theorem selection_NoDup (w : World) :
  reachable w →
  NoDup (currentSizes (state w))
  ∧ (length (currentSizes (state w)) ≤ length (catalog (type (state w))))%nat
  ∧ (length (currentSizes (state w)) ≤ 10)%nat.
Proof.
  intros Hw.
  assert (NoDup (currentSizes (state w))) as Hnd.
  { induction Hw as [now ctx enc | w e w' Hw IH [_ Hstep]]; [constructor|].
    pose proof (handle_selection e w) as [Hsel _]. rewrite Hstep in Hsel.
    cbn [world_of] in Hsel. rewrite Hsel.
    destruct e; try exact IH; [constructor | by apply toggle_NoDup]. }
  assert (length (currentSizes (state w)) ≤ length (catalog (type (state w))))%nat
    as Hlen.
  { apply submseteq_length, NoDup_submseteq; [done|].
    apply (reachable_selection w Hw). }
  split_and!; [done | done |].
  etrans; [exact Hlen|]. destruct (type (state w)); cbn; lia.
Qed.

Lemma selection_NoDup_witness :
  NoDup (currentSizes (state hoodie_world))
  ∧ length (currentSizes (state hoodie_world)) = 2%nat.
Proof.
  split; [|reflexivity].
  exact (proj1 (selection_NoDup hoodie_world hoodie_reachable)).
Defined.

(** X13. Deselecting and reselecting a selected size moves it to the
    end: the other sizes keep their order and the size comes last. *)
Theorem reselect_moves_to_end (w : World) (size : Size) :
  size ∈ currentSizes (state w) →
  ∃ w1 w2,
    handleSizeToggle size w = Ok tt w1
    ∧ handleSizeToggle size w1 = Ok tt w2
    ∧ currentSizes (state w2)
      = filter (fun s => s ≠ size) (currentSizes (state w)) ++ [size].
Proof.
  intros Hin. do 2 eexists. split; [reflexivity|]. split; [reflexivity|].
  cbn. rewrite (toggle_member size (currentSizes (state w))) by done.
  apply toggle_absent. rewrite list_elem_of_filter. tauto.
Qed.

Lemma reselect_moves_to_end_witness :
  ∃ w1 w2,
    handleSizeToggle sz_M hoodie_world = Ok tt w1
    ∧ handleSizeToggle sz_M w1 = Ok tt w2
    ∧ currentSizes (state w2) = [sz_L; sz_M].
Proof.
  destruct (reselect_moves_to_end hoodie_world sz_M) as (w1 & w2 & H1 & H2 & Hc).
  - vm_compute. by left.
  - exists w1, w2. by split_and!.
Defined.

(** X14. The last stock text entered for a selected size is what is
    sent: after a stock edit of a selected size, a valid submission
    passes a request holding at that size the value the edit stored
    (0 for a text that does not parse or parses below zero, the parsed
    number otherwise), and at every other size what it would have held
    without the edit. *)
Theorem last_stock_edit_is_sent (w : World) (size : Size) (raw : jsstring) :
  size ∈ currentSizes (state w) →
  ¬ blank (name (state w)) →
  num_gt (parseFloat (price (state w))) pos_zero = true →
  image (state w) ≠ [] →
  ∃ w1 w2 v,
    handleStockChange size raw w = Ok tt w1
    ∧ handleSubmit w1 = Ok tt w2
    ∧ trace w2 = trace w ++ [preventDefault; onAdd (builtRequest w1); onClose]
    ∧ product_sizes (builtRequest w1) !! label size = Some v
    ∧ strict_eq v (setStock_spec raw) = true
    ∧ (parseInt raw ≠ neg_zero → v = setStock_spec raw)
    ∧ (∀ other, other ≠ size →
         product_sizes (builtRequest w1) !! label other
         = product_sizes (builtRequest w) !! label other).
Proof.
  intros Hsel Hname Hprice Himage.
  assert (trim (name (state w)) ≠ []) as Htrim by (by rewrite trim_nil_iff).
  set (w1 := world_of (handleStockChange size raw w)).
  pose proof (handleSubmit_valid w1 Htrim Hprice Himage) as Hacc.
  exists w1. eexists. eexists. split; [reflexivity|]. split; [exact Hacc|].
  split; [cbn; by rewrite <- !app_assoc|].
  cbn [builtRequest product_sizes].
  split_and!.
  - rewrite request_sizes_lookup, bool_decide_eq_true_2 by done.
    unfold stockOf. cbn. rewrite lookup_insert_eq.
    by rewrite or_default_quantity by apply stored_quantity.
  - apply stored_spec.
  - apply stored_spec.
  - intros other Hne. rewrite !request_sizes_lookup. f_equal.
    change (currentSizes (state w1)) with (currentSizes (state w)).
    case_bool_decide; [|done]. unfold stockOf. cbn.
    rewrite lookup_insert_ne; [done|].
    intros Heq. by apply label_inj in Heq.
Qed.

Lemma last_stock_edit_is_sent_witness :
  ∃ w1 w2,
    handleStockChange sz_M (str "-4") hoodie_world = Ok tt w1
    ∧ handleSubmit w1 = Ok tt w2
    ∧ product_sizes (builtRequest w1) !! label sz_M = Some pos_zero
    ∧ product_sizes (builtRequest w1) !! label sz_L = Some (of_Z 3).
Proof.
  destruct (last_stock_edit_is_sent hoodie_world sz_M (str "-4"))
    as (w1 & w2 & v & H1 & H2 & _ & Hv & _ & Heq & Hother).
  - vm_compute. by left.
  - vm_compute. intros H. inversion H as [|? ? Hc _]. discriminate Hc.
  - vm_compute. reflexivity.
  - vm_compute. discriminate.
  - exists w1, w2. split_and!; try done.
    + rewrite Hv, Heq; [by vm_compute | by vm_compute].
    + rewrite (Hother sz_L) by done. by vm_compute.
Defined.

(** ** The name sent *)

Lemma trimStart_head (s t : jsstring) (c : code_unit) :
  trimStart s = c :: t → isStrWhiteSpaceChar c = false.
Proof.
  induction s as [|a r IH]; cbn; [done|].
  destruct (isStrWhiteSpaceChar a) eqn:Ha; [exact IH|]. by intros [= <- _].
Qed.

Lemma trimStart_split (s : jsstring) :
  ∃ pre, s = pre ++ trimStart s ∧ blank pre.
Proof.
  unfold blank. induction s as [|a r (pre & Hr & Hpre)]; cbn.
  - exists []. split; [done | constructor].
  - destruct (isStrWhiteSpaceChar a) eqn:Ha.
    + exists (a :: pre). split; [cbn; by rewrite <- Hr | by constructor].
    + exists []. split; [done | constructor].
Qed.

Lemma trimEnd_split (s : jsstring) :
  ∃ post, s = trimEnd s ++ post ∧ blank post.
Proof.
  destruct (trimStart_split (rev s)) as (pre & Hs & Hpre).
  exists (rev pre). split; [|by apply blank_rev].
  unfold trimEnd. rewrite <- rev_app_distr, <- Hs. by rewrite rev_involutive.
Qed.

(** X15. The name sent is the name typed with the white space at both
    ends removed and nothing else changed: the typed name is the sent
    name between two runs of white space, and the sent name, which is
    not empty, neither starts nor ends with white space. *)
Theorem sent_name_is_trimmed (w : World) :
  ¬ blank (name (state w)) →
  num_gt (parseFloat (price (state w))) pos_zero = true →
  image (state w) ≠ [] →
  submit_accepted w (builtRequest w)
  ∧ product_name (builtRequest w) ≠ []
  ∧ no_outer_space (product_name (builtRequest w))
  ∧ ∃ pre post,
      name (state w) = pre ++ product_name (builtRequest w) ++ post
      ∧ blank pre ∧ blank post.
Proof.
  intros Hname Hprice Himage.
  assert (trim (name (state w)) ≠ []) as Htrim by (by rewrite trim_nil_iff).
  split; [by apply handleSubmit_valid|]. split; [done|].
  cbn [builtRequest product_name]. unfold trim.
  destruct (trimStart_split (name (state w))) as (pre & Hpre & Hbpre).
  destruct (trimEnd_split (trimStart (name (state w)))) as (post & Hpost & Hbpost).
  split; [split|].
  - intros c t Hc. rewrite Hc in Hpost. by apply trimStart_head in Hpost.
  - intros t c Hc. unfold trimEnd in Hc.
    apply (f_equal (@rev _)) in Hc.
    rewrite rev_involutive, rev_app_distr in Hc. by apply trimStart_head in Hc.
  - exists pre, post. split; [|done]. by rewrite <- Hpost.
Qed.

Lemma sent_name_is_trimmed_witness :
  name (state padded_name_world) = [9%N; 32%N] ++ str "Red Hoodie" ++ [160%N; 10%N]
  ∧ product_name (builtRequest padded_name_world) = str "Red Hoodie"
  ∧ submit_accepted padded_name_world (builtRequest padded_name_world).
Proof.
  split; [reflexivity|]. split; [reflexivity|].
  apply sent_name_is_trimmed.
  - vm_compute. intros H. inversion H as [|? ? _ Ha].
    inversion Ha as [|? ? _ Hb]. inversion Hb as [|? ? Hc _]. discriminate Hc.
  - vm_compute. reflexivity.
  - vm_compute. discriminate.
Defined.
